(** * unisearch: the Redis search adapter, embedded and verified

    The development follows [src/adapters/redis.ts] (the two-strategy
    adapter: phonetic and prefix/typeahead) and its earlier single-strategy
    revision.  The Redis server is modelled as a finite map from keys to
    sorted sets; the adapter's asynchronous methods become functions over a
    client state that carries the keyspace together with the log of the
    requests sent to the server.

    Conventions of the embedding:
    - sorted-set scores are integers ([Z]): the only numbers the adapter
      sends as scores are term counts and the constant 0, and the server
      only sums them; a score argument that is no number is refused;
    - JavaScript strings are byte strings; every character the adapter
      inspects (the class [\w]) is ASCII, so byte-wise and code-unit-wise
      scanning agree;
    - plain JavaScript objects used as dictionaries are insertion-ordered
      association lists of their own properties, with the key order of
      [Object.keys]; reading and assigning a name they do not own goes
      through [Object.prototype], as it does for an object literal;
    - [natural]'s stemmer and double-metaphone encoder, and the host's
      locale-aware string functions, are parameters of the development. *)

From Stdlib Require Import ZArith Ascii String List.
From stdpp Require Import base tactics option list strings gmap fin_maps
  sorting pretty.

#[local] Set Warnings "-clear-no-such-hyp".

Local Open Scope string_scope.
Local Open Scope Z_scope.
Local Open Scope list_scope.

(** ** JavaScript values used by the adapter *)

Module JS.

(** What an [async] method settles to: a value or a thrown exception. *)
Inductive exn :=
| TypeError
| Error (message : string).

Inductive outcome (A : Type) :=
| Return (a : A)
| Throw (e : exn).
Arguments Return {A} a.
Arguments Throw {A} e.

(** [Array.prototype.join]. *)
Fixpoint join (sep : string) (l : list string) : string :=
  match l with
  | [] => ""
  | [x] => x
  | x :: l' => x +:+ sep +:+ join sep l'
  end.

(** Document identifiers have type [string | number].  [IdNum] covers the
    integers that [String] prints digit by digit (magnitude below 1e21).
    The adapter only ever converts a document identifier to a string (its
    truthiness decides [metaphoneKeys], which [set] does not use), so any
    other number behaves as the [IdStr] of its string form. *)
Inductive ident :=
| IdStr (s : string)
| IdNum (n : Z).

(** [String(id)], also the implicit conversion in [prefix + id]. *)
Definition to_string (id : ident) : string :=
  match id with
  | IdStr s => s
  | IdNum n => pretty n
  end.

(** Truthiness, as tested by [!id]. *)
Definition truthy (id : ident) : bool :=
  match id with
  | IdStr s => negb (bool_decide (s = ""))
  | IdNum n => negb (n =? 0)
  end.

(** *** Objects used as dictionaries ([Record<string, V>]) *)

Definition dict (V : Type) := list (string * V).

Fixpoint get {V} (o : dict V) (k : string) : option V :=
  match o with
  | [] => None
  | (k', v) :: o' => if decide (k' = k) then Some v else get o' k
  end.

(** [o[k] = v]: an existing property keeps its position. *)
Fixpoint set {V} (o : dict V) (k : string) (v : V) : dict V :=
  match o with
  | [] => [(k, v)]
  | (k', v') :: o' =>
      if decide (k' = k) then (k', v) :: o' else (k', v') :: set o' k v
  end.

Definition digit (c : ascii) : option N :=
  let n := N_of_ascii c in
  if ((48 <=? n) && (n <=? 57))%N then Some (n - 48)%N else None.

Fixpoint digits (acc : N) (s : string) : option N :=
  match s with
  | EmptyString => Some acc
  | String c s' =>
      match digit c with
      | Some d => digits (10 * acc + d)%N s'
      | None => None
      end
  end.

(** A property name is an array index when it is the canonical decimal
    form of an integer below 2^32 - 1. *)
Definition array_index (k : string) : option N :=
  match k with
  | EmptyString => None
  | String _ _ =>
      match digits 0 k with
      | Some n =>
          if bool_decide (pretty n = k) && (n <? 4294967295)%N
          then Some n else None
      | None => None
      end
  end.

(** *** Members inherited from [Object.prototype]

    An object literal inherits eleven functions and the accessor
    [__proto__], whose getter returns the prototype. *)
Definition methods : list string :=
  ["constructor"; "__defineGetter__"; "__defineSetter__"; "hasOwnProperty";
   "__lookupGetter__"; "__lookupSetter__"; "isPrototypeOf";
   "propertyIsEnumerable"; "toString"; "valueOf"; "toLocaleString"].

(** [String(f)] for the built-in function called [name], as V8 (the engine
    of Node) prints it. *)
Definition native (name : string) : string :=
  "function " +:+ name +:+ "() { [native code] }".

(** What [o[k]] finds when the object literal [o] does not own [k], as the
    string it becomes under [+]: every inherited member is an object, hence
    truthy, and is converted by its [toString] ([constructor] is the
    function [Object]; [__proto__] reads [Object.prototype]).  [None] is
    [undefined]. *)
Definition inherited (k : string) : option string :=
  if decide (k = "__proto__") then Some "[object Object]"
  else if decide (k = "constructor") then Some (native "Object")
  else if decide (k ∈ methods) then Some (native k)
  else None.

(** [o[k] = v] on an object literal.  The setter of [__proto__] creates no
    own property: it replaces the prototype when [v] is an object and does
    nothing otherwise.  The other inherited members are writable data
    properties, which an assignment shadows by an own property. *)
Definition assign {V} (o : dict V) (k : string) (v : V) : dict V :=
  if decide (k = "__proto__") then o else set o k v.

(** The values of [(o[k] || 0) + 1]: a number, or a string once [o[k]]
    was not a number. *)
Inductive value :=
| Num (n : Z)
| Str (s : string).

(** [n] times the digit 1. *)
Fixpoint ones (n : nat) : string :=
  match n with
  | O => ""
  | S n' => ones n' +:+ "1"
  end.

Definition index_le (a b : N * string) : Prop := (a.1 ≤ b.1)%N.
#[global] Instance index_le_dec : RelDecision index_le.
Proof. intros a b. unfold index_le. apply _. Defined.

(** [Object.keys]: array indices in ascending numeric order, then the
    other names in insertion order. *)
Definition keys {V} (o : dict V) : list string :=
  let names := o.*1 in
  let idx := omap (λ k, (λ n, (n, k)) <$> array_index k) names in
  let others := filter (λ k, array_index k = None) names in
  (merge_sort index_le idx).*2 ++ others.

End JS.

(** ** The Redis server: sorted sets and the commands the adapter sends

    The server is an external collaborator of the adapter; each command
    follows its documented behaviour on sorted sets. *)

Module Redis.

Abbreviation zset := (gmap string Z).
Abbreviation keyspace := (gmap string (gmap string Z)).

(** The two store commands named by the adapter's [types] table. *)
Inductive store_command := zinterstore | zunionstore.

Inductive command :=
| ZADD (key : string) (score : Z) (member : string)
| ZADD_TEXT (key : string) (score : string) (member : string)
    (* ZADD whose score argument was a string in the caller *)
| ZREM (key member : string)
| DEL (key : string)
| ZSTORE (op : store_command) (dest : string) (keys : list string)
| ZRANGE (key : string) (start stop : Z) (rev : bool)
| ZREMRANGEBYRANK (key : string) (start stop : Z)
| ZREVRANGEBYSCORE (key : string) (min : Z).
    (* the upper bound is always "+inf" *)

Inductive reply :=
| Integer (n : Z)
| Array (l : list string)
| Failure (message : string).

(** A request is one command, or a MULTI/EXEC batch run atomically. *)
Inductive request :=
| Single (c : command)
| Multi (cs : list command).

Definition zset_at (d : keyspace) (k : string) : zset := default ∅ (d !! k).

Definition zscore (d : keyspace) (k m : string) : option Z :=
  d !! k ≫= λ z, z !! m.

(** A key holding an empty sorted set does not exist. *)
Definition put (k : string) (z : zset) (d : keyspace) : keyspace :=
  if decide (z = ∅) then delete k d else <[k := z]> d.

(** Rank order: by score, ties by byte-wise member order. *)
Definition rank_le (a b : string * Z) : Prop :=
  a.2 < b.2 ∨ (a.2 = b.2 ∧ String.le a.1 b.1).
#[global] Instance rank_le_dec : RelDecision rank_le.
Proof. intros a b. unfold rank_le. apply _. Defined.

Definition ascending (z : zset) : list string :=
  (merge_sort rank_le (map_to_list z)).*1.

Definition descending (z : zset) : list string := reverse (ascending z).

(** The window selected by a pair of rank indices; negative indices
    count from the end. *)
Definition window {A} (l : list A) (start stop : Z) : list A :=
  let len := Z.of_nat (length l) in
  let start := if start <? 0 then len + start else start in
  let stop := if stop <? 0 then len + stop else stop in
  let start := if start <? 0 then 0 else start in
  if (stop <? start) || (len <=? start) then []
  else
    let stop := if len <=? stop then len - 1 else stop in
    take (Z.to_nat (stop - start + 1)) (drop (Z.to_nat start) l).

(** Members present in every set, scores summed. *)
Definition inter_all (zs : list zset) : zset :=
  match zs with
  | [] => ∅
  | z :: zs' => foldl (intersection_with (λ a b, Some (a + b))) z zs'
  end.

(** Members present in some set, scores summed. *)
Definition union_all (zs : list zset) : zset :=
  foldl (union_with (λ a b, Some (a + b))) ∅ zs.

Definition combine (op : store_command) (zs : list zset) : zset :=
  match op with
  | zinterstore => inter_all zs
  | zunionstore => union_all zs
  end.

Definition remove_members (ms : list string) (z : zset) : zset :=
  foldr delete z ms.

(** The score filter of ZREVRANGEBYSCORE key +inf min. *)
Definition score_from (min : Z) (z : zset) (m : string) : bool :=
  match z !! m with
  | Some sc => bool_decide (min ≤ sc)
  | None => false
  end.

(** The score a string argument denotes when it is a decimal integer
    literal.  Strings in another float notation ("1.5", "1e3", "inf") are
    not modelled; the adapter sends none. *)
Definition score_of_text (s : string) : option Z :=
  match s with
  | EmptyString => None
  | String "-" (String c s') => Z.opp ∘ Z.of_N <$> JS.digits 0 (String c s')
  | String "+" (String c s') => Z.of_N <$> JS.digits 0 (String c s')
  | String _ _ => Z.of_N <$> JS.digits 0 s
  end.

Definition exec (c : command) (d : keyspace) : reply * keyspace :=
  match c with
  | ZADD k sc m =>
      let z := zset_at d k in
      (Integer (if z !! m is Some _ then 0 else 1), <[k := <[m := sc]> z]> d)
  | ZADD_TEXT k s m =>
      match score_of_text s with
      | Some sc =>
          let z := zset_at d k in
          (Integer (if z !! m is Some _ then 0 else 1),
           <[k := <[m := sc]> z]> d)
      | None => (Failure "ERR value is not a valid float", d)
      end
  | ZREM k m =>
      let z := zset_at d k in
      (Integer (if z !! m is Some _ then 1 else 0), put k (delete m z) d)
  | DEL k =>
      (Integer (if d !! k is Some _ then 1 else 0), delete k d)
  | ZSTORE op dest ks =>
      let z := combine op (zset_at d <$> ks) in
      (Integer (Z.of_nat (size z)), put dest z d)
  | ZRANGE k start stop rev =>
      let z := zset_at d k in
      (Array (window (if rev then descending z else ascending z) start stop),
       d)
  | ZREMRANGEBYRANK k start stop =>
      let z := zset_at d k in
      let gone := window (ascending z) start stop in
      (Integer (Z.of_nat (length gone)), put k (remove_members gone z) d)
  | ZREVRANGEBYSCORE k min =>
      let z := zset_at d k in
      (Array (filter (λ m, score_from min z m) (descending z)), d)
  end.

(** A batch runs its commands in order and returns their replies in
    submission order; a command that fails does not stop the others. *)
Fixpoint exec_all (cs : list command) (d : keyspace)
  : list reply * keyspace :=
  match cs with
  | [] => ([], d)
  | c :: cs' =>
      let '(r, d1) := exec c d in
      let '(rs, d2) := exec_all cs' d1 in
      (r :: rs, d2)
  end.

(** The connection: the server's keyspace and every request sent. *)
Record client := Client { db : keyspace; sent : list request }.

Definition fresh : client := Client ∅ [].

Definition call (c : command) (cl : client) : reply * client :=
  let '(r, d) := exec c (db cl) in
  (r, Client d (sent cl ++ [Single c])).

Definition multi_exec (cs : list command) (cl : client)
  : list reply * client :=
  let '(rs, d) := exec_all cs (db cl) in
  (rs, Client d (sent cl ++ [Multi cs])).

Definition members (r : reply) : list string :=
  match r with
  | Array l => l
  | Integer _ | Failure _ => []
  end.

End Redis.

Import JS Redis.

(** ** Text analysis *)

Module Analyzer.

(** The character class [\w]. *)
Definition word_char (c : ascii) : bool :=
  let n := N_of_ascii c in
  ((48 <=? n) && (n <=? 57) || (65 <=? n) && (n <=? 90) || (n =? 95)
   || (97 <=? n) && (n <=? 122))%N.

Definition flush (cur : string) : list string :=
  match cur with
  | EmptyString => []
  | String _ _ => [cur]
  end.

(** All matches of [/\w+/g], scanning left to right; [cur] is the run
    being extended. *)
Fixpoint match_words (cur : string) (s : string) : list string :=
  match s with
  | EmptyString => flush cur
  | String c s' =>
      if word_char c then match_words (cur +:+ String c "") s'
      else flush cur ++ match_words "" s'
  end.

(** [getWords]: [String(str).match(/\w+/g)], which is [null] ([None])
    when nothing matches. *)
Definition getWords (str : string) : option (list string) :=
  match match_words "" str with
  | [] => None
  | ws => Some ws
  end.

(** [d.split("").map((c, i) => d.slice(0, i + 1))] *)
Fixpoint prefixes (d : string) : list string :=
  match d with
  | EmptyString => []
  | String c d' => String c "" :: (String c <$> prefixes d')
  end.

(** [getTextTokens]: [words.map] throws on [null]. *)
Definition getTextTokens (text : string) : outcome (list (list string)) :=
  match getWords text with
  | None => Throw TypeError
  | Some words => Return (prefixes <$> words)
  end.

Definition getTokenKeys (id : ident) (tokens : list (list string))
  : list string :=
  concat tokens.

Record ProcessTokens := {
  tokens : list (list string);
  token_keys : list string;
}.

Definition processText (id : ident) (str : string) : outcome ProcessTokens :=
  match getTextTokens str with
  | Throw e => Throw e
  | Return tokens =>
      Return {| tokens := tokens; token_keys := getTokenKeys id tokens |}
  end.

Section Language.
(** [natural.PorterStemmer.stem] and [natural.DoubleMetaphone#process]. *)
Variable nStem : string → string.
Variable nMetaphone : string → list string.

(** [getStemWords]: a [null] word list yields the empty array.  The
    functions below receive its result, so their own [!words] guards never
    fire. *)
Definition getStemWords (words : option (list string)) : list string :=
  match words with
  | None => []
  | Some ws => nStem <$> ws
  end.

(** [(obj[w] || 0) + 1]: an own number is incremented, [undefined] counts
    as 0, and anything else is truthy and is concatenated with "1". *)
Definition increment (obj : dict value) (w : string) : value :=
  match JS.get obj w with
  | Some (Num n) => Num ((if n =? 0 then 0 else n) + 1)
  | Some (Str s) => if decide (s = "") then Num 1 else Str (s +:+ "1")
  | None =>
      match inherited w with
      | Some text => Str (text +:+ "1")
      | None => Num 1
      end
  end.

(** [wordLength]: [obj[w] = (obj[w] || 0) + 1] for every word in turn,
    starting from [{}]. *)
Definition wordLength (words : list string) : dict value :=
  foldl (λ obj w, assign obj w (increment obj w)) [] words.

(** [generateMetaphoneMap]: [obj[w] = nMetaphone.process(w)] for every
    word in turn, starting from [{}].  The object is afterwards read at
    its own names only, which the prototype does not affect. *)
Definition generateMetaphoneMap (words : list string)
  : dict (list string) :=
  foldl (λ obj w, assign obj w (nMetaphone w)) [] words.

(** [toMetaphoneArray]: the codes of all words, first occurrences only. *)
Definition toMetaphoneArray (words : list string) : list string :=
  foldl (λ arr w,
           foldl (λ arr d, if decide (d ∈ arr) then arr else arr ++ [d])
                 arr (nMetaphone w))
        [] words.

Definition getMetaphoneKeys (id : ident) (words : list string)
  : list string :=
  (λ c, to_string id +:+ ":word:" +:+ c) <$> toMetaphoneArray words.

Record ProcessLanguage := {
  words : list string;
  counts : dict value;
  map : dict (list string);
  keys : list string;
  metaphoneKeys : option (list string);
}.

Definition processLanguage (str : string) (id : ident) : ProcessLanguage :=
  let words := getStemWords (getWords str) in
  let counts := wordLength words in
  let map := generateMetaphoneMap words in
  let keys := JS.keys map in
  let metaphoneKeys :=
    if truthy id then Some (getMetaphoneKeys id words) else None in
  {| words := words; counts := counts; map := map; keys := keys;
     metaphoneKeys := metaphoneKeys |}.
End Language.

Section Collation.
(** [String.prototype.toLocaleLowerCase] and [localeCompare]. *)
Variable toLocaleLowerCase : string → string.
Variable localeCompare : string → string → Z.

Definition compareWords (x y : string) : Z :=
  localeCompare (toLocaleLowerCase x) (toLocaleLowerCase y).

Fixpoint insert_word (x : string) (l : list string) : list string :=
  match l with
  | [] => [x]
  | y :: l' =>
      if compareWords x y <? 0 then x :: y :: l'
      else y :: insert_word x l'
  end.

(** [words.sort(compare)]: a stable sort.  With a comparator that is not
    a total preorder the order is left to the engine; no property proved
    below depends on it. *)
Definition sort (ws : list string) : list string :=
  foldl (λ acc x, insert_word x acc) [] ws.
End Collation.

End Analyzer.

Import Analyzer.

(** ** The adapter ([RedisAdapter]) *)

(** An [async] method: it runs against the connection and settles. *)
Definition async (A : Type) : Type := client → outcome A * client.

#[global] Instance async_ret : MRet async := λ A a cl, (Return a, cl).
#[global] Instance async_bind : MBind async := λ A B k m cl,
  match m cl with
  | (Return a, cl') => k a cl'
  | (Throw e, cl') => (Throw e, cl')
  end.

Definition throw {A} (e : exn) : async A := λ cl, (Throw e, cl).

(** [client.<command>(...)] and [client.multi(cmds).exec()]. *)
Definition send (c : command) : async reply := λ cl,
  let '(r, cl') := call c cl in (Return r, cl').
Definition multi (cs : list command) : async (list reply) := λ cl,
  let '(rs, cl') := multi_exec cs cl in (Return rs, cl').

(** The names accepted by [options.type]. *)
Inductive type_name := type_intersect | type_union | type_and | type_or.

(** The table [types]. *)
Definition types (t : type_name) : store_command :=
  match t with
  | type_intersect => zinterstore
  | type_union => zunionstore
  | type_and => zinterstore
  | type_or => zunionstore
  end.

Record Between := { from : option Z; to : option Z }.
Record SearchOptions := {
  type : option type_name;
  between : option Between;
}.

(** [options?.type ? types[options.type] : null], then [?? types["and"]]. *)
Definition search_type (options : option SearchOptions) : store_command :=
  let _type :=
    match options ≫= type with
    | Some t => Some (types t)
    | None => None
    end in
  default (types type_and) _type.

(** [options?.between?.from ?? 0] and [options?.between?.to ?? -1]. *)
Definition search_start (options : option SearchOptions) : Z :=
  default 0 ((options ≫= between) ≫= from).
Definition search_stop (options : option SearchOptions) : Z :=
  default (-1) ((options ≫= between) ≫= to).

Definition word_key (index code : string) : string :=
  index +:+ ":word:" +:+ code.
Definition object_key (index id : string) : string :=
  index +:+ ":object:" +:+ id.
Definition token_key (index token : string) : string :=
  index +:+ ":token:" +:+ token.
Definition tmp_key (index : string) : string := index +:+ "tmpkey".
Definition cache_key (index sep : string) (keys : list string) : string :=
  index +:+ ":cache:" +:+ join sep keys.

Definition writeToTypeAheadIndex (index : string) (id : ident)
  (tokenObj : ProcessTokens) : async unit :=
  let cmds :=
    (λ key, ZADD (token_key index key) 0 (to_string id))
      <$> token_keys tokenObj in
  _ ← multi cmds; mret ().

(** [removeFromIndex]: the reverse index is read first, then the key and
    every forward entry are removed in one batch. *)
Definition removeFromIndex (index : string) (id : ident)
  : async (list reply) :=
  constants ← send (ZREVRANGEBYSCORE (object_key index (to_string id)) 0);
  multi (DEL (object_key index (to_string id))
         :: ((λ c, ZREM (word_key index c) (to_string id))
               <$> members constants)).

Section Adapter.
Variable nStem : string → string.
Variable nMetaphone : string → list string.
Variable toLocaleLowerCase : string → string.
Variable localeCompare : string → string → Z.

(** [["zadd", key, count, member]]: the count goes out as it is. *)
Definition zadd (key : string) (count : value) (member : string) : command :=
  match count with
  | Num n => ZADD key n member
  | Str s => ZADD_TEXT key s member
  end.

(** The two commands pushed for one code of one word. *)
Definition code_cmds (index : string) (id : ident) (count : value)
  (wordKey : string) : list command :=
  [zadd (word_key index wordKey) count (to_string id);
   zadd (object_key index (to_string id)) count wordKey].

(** The array [cmds] filled by [writeToMetaphoneIndex].  Every name of
    [map] is an own name of [map] and of [counts], so the defaults below
    are never used. *)
Definition metaphone_cmds (index : string) (id : ident)
  (nlpObj : ProcessLanguage) : list command :=
  word ← keys nlpObj;
  wordKey ← default [] (JS.get (map nlpObj) word);
  code_cmds index id (default (Num 0) (JS.get (counts nlpObj) word)) wordKey.

Definition writeToMetaphoneIndex (index : string) (id : ident)
  (nlpObj : ProcessLanguage) : async unit :=
  _ ← multi (metaphone_cmds index id nlpObj); mret ().

Inductive MODES := phonetic | prefix.

Record RedisAdapter := { index : string; mode : MODES }.

(** The constructor: [options.mode || MODES.phonetic]. *)
Definition new_RedisAdapter (name : string) (mode : option MODES)
  : RedisAdapter :=
  {| index := name; mode := default phonetic mode |}.

Definition setTypeAhead (this : RedisAdapter) (id : ident) (text : string)
  : async bool :=
  match processText id text with
  | Throw e => throw e
  | Return processed =>
      _ ← writeToTypeAheadIndex (index this) id processed; mret true
  end.

Definition setMetaphone (this : RedisAdapter) (id : ident) (text : string)
  : async bool :=
  let processed := processLanguage nStem nMetaphone text id in
  _ ← writeToMetaphoneIndex (index this) id processed; mret true.

Definition set (this : RedisAdapter) (id : ident) (text : string)
  : async bool :=
  match mode this with
  | prefix => setTypeAhead this id text
  | phonetic => setMetaphone this id text
  end.

Definition delete (this : RedisAdapter) (id : ident) : async bool :=
  _ ← removeFromIndex (index this) id; mret true.

Definition metaphoneSearch (this : RedisAdapter) (text : string)
  (options : option SearchOptions) : async (list string) :=
  let nlpObj :=
    processLanguage nStem nMetaphone text (IdStr (index this)) in
  let type := search_type options in
  let start := search_start options in
  let stop := search_stop options in
  match metaphoneKeys nlpObj with
  | None | Some [] => mret []
  | Some keys =>
      let tkey := tmp_key (index this) in
      result ← multi [ZSTORE type tkey keys;
                      ZRANGE tkey start stop true;
                      ZREMRANGEBYRANK tkey start stop];
      match result with
      | [] => mret []
      | _ => mret (default [] (members <$> result !! 1%nat))
      end
  end.

Definition typeaheadSearch (this : RedisAdapter) (text : string)
  (options : option SearchOptions) : async (list string) :=
  let type := search_type options in
  let start := search_start options in
  let stop := search_stop options in
  match getWords text with
  | None => throw TypeError
  | Some words =>
      let keys := sort toLocaleLowerCase localeCompare words in
      let posting := token_key (index this) <$> keys in
      let '(tkey, base) :=
        if bool_decide (1 ≤ length keys)%nat then
          match type with
          | zinterstore =>
              let tkey := cache_key (index this) "&" keys in
              (tkey, [ZSTORE zinterstore tkey posting])
          | zunionstore =>
              let tkey := cache_key (index this) "|" keys in
              (tkey, [ZSTORE zunionstore tkey posting])
          end
        else (token_key (index this) (join "" keys), [])
      in
      _ ← multi base;
      result ← send (ZRANGE tkey start stop false);
      mret (members result)
  end.

Definition search (this : RedisAdapter) (text : string)
  (options : option SearchOptions) : async (list string) :=
  match mode this with
  | prefix => typeaheadSearch this text options
  | phonetic => metaphoneSearch this text options
  end.

End Adapter.

(** *** The earlier, phonetic-only revision of the adapter

    Its [set] and [delete] are [setMetaphone] and [delete] above, and the
    body of its [search] after the guard is that of [metaphoneSearch].
    [mode] is whatever the caller passed as [options.mode]; [None] stands
    for [undefined]. *)
Module Legacy.
Definition MODES_phonetic : Z := 0.

Record RedisAdapter := { index : string; mode : option Z }.

Definition unsupported : exn :=
  Error "We only support phonetic search right now".

(** [this.mode != MODES.phonetic] *)
Definition mode_differs (m : option Z) : bool :=
  match m with
  | Some n => negb (n =? MODES_phonetic)
  | None => true
  end.

Section Search.
Variable nStem : string → string.
Variable nMetaphone : string → list string.

Definition search (this : RedisAdapter) (text : string)
  (options : option SearchOptions) : async (list string) :=
  if mode_differs (mode this) then throw unsupported
  else
    metaphoneSearch nStem nMetaphone
      (new_RedisAdapter (index this) (Some phonetic)) text options.
End Search.
End Legacy.

(** ** Histories of adapter calls *)

Inductive op :=
| OpSet (id : ident) (text : string)
| OpDelete (id : ident)
| OpSearch (text : string) (options : option SearchOptions).

Section Histories.
Variable nStem : string → string.
Variable nMetaphone : string → list string.
Variable toLocaleLowerCase : string → string.
Variable localeCompare : string → string → Z.

(** One call of the adapter, run to completion. *)
Definition step (this : RedisAdapter) (cl : client) (o : op) : client :=
  match o with
  | OpSet id text => (set nStem nMetaphone this id text cl).2
  | OpDelete id => (delete this id cl).2
  | OpSearch text options =>
      (search nStem nMetaphone toLocaleLowerCase localeCompare
         this text options cl).2
  end.

Definition run (this : RedisAdapter) (ops : list op) : client :=
  foldl (step this) fresh ops.
End Histories.

(** ** Properties of keyspaces and texts *)

(** Every forward posting entry has its mirror in the reverse index. *)
Definition mirrored (index : string) (d : keyspace) : Prop :=
  ∀ code id sc,
    zscore d (word_key index code) id = Some sc →
    zscore d (object_key index id) code = Some sc.

(** Reverse-index scores are term counts. *)
Definition counted (index : string) (d : keyspace) : Prop :=
  ∀ id code sc, zscore d (object_key index id) code = Some sc → 1 ≤ sc.

Definition consistent (index : string) (d : keyspace) : Prop :=
  mirrored index d ∧ counted index d.

Fixpoint all_chars (p : ascii → bool) (s : string) : bool :=
  match s with
  | EmptyString => true
  | String c s' => p c && all_chars p s'
  end.

Definition separator (s : string) : Prop :=
  all_chars (λ c, negb (word_char c)) s.

Definition word (s : string) : Prop := s ≠ "" ∧ all_chars word_char s.

(** What follows a maximal run: the end of the text or a separator. *)
Definition run_end (s : string) : Prop :=
  match s with
  | EmptyString => True
  | String c _ => word_char c = false
  end.

(** [tokenized s ws]: [ws] are the maximal runs of word characters of
    [s], in order of occurrence. *)
Inductive tokenized : string → list string → Prop :=
| tokenized_end sep :
    separator sep → tokenized sep []
| tokenized_run sep w rest ws :
    separator sep → word w → run_end rest → tokenized rest ws →
    tokenized (sep +:+ w +:+ rest) (w :: ws).

(** Number of occurrences of a word. *)
Definition occurrences (w : string) (ws : list string) : Z :=
  Z.of_nat (length (filter (λ x, x = w) ws)).

(** A word that names no member of [Object.prototype]. *)
Definition plain (w : string) : Prop := inherited w = None.

(** What [wordLength] holds for a word met [n] times: the count, or the
    text of the inherited member of that name followed by [n] ones. *)
Definition tally (w : string) (n : Z) : value :=
  match inherited w with
  | Some text => Str (text +:+ ones (Z.to_nat n))
  | None => Num n
  end.

(** A fragment of [natural]'s analyzers, tabulated on words of the
    repository's test: the Porter stems of "hello", "foo" and "bar" are the
    words themselves, and double metaphone returns the primary and the
    secondary code, equal for these words. *)
Module Sample.
Definition stem (w : string) : string := w.

Definition metaphone (w : string) : list string :=
  if decide (w = "foo") then ["F"; "F"]
  else if decide (w = "bar") then ["PR"; "PR"]
  else if decide (w = "hello") then ["HL"; "HL"]
  else [].

(** Lower-casing and comparison of ASCII words: on words made of digits
    and letters the collation order of the lower-cased words is their
    byte order. *)
Definition lower_char (c : ascii) : ascii :=
  let n := N_of_ascii c in
  if ((65 <=? n) && (n <=? 90))%N then ascii_of_N (n + 32) else c.

Fixpoint lower (s : string) : string :=
  match s with
  | EmptyString => EmptyString
  | String c s' => String (lower_char c) (lower s')
  end.

Definition collate (x y : string) : Z :=
  match String.compare x y with
  | Lt => -1
  | Eq => 0
  | Gt => 1
  end.

(** A stand-in encoder: the word is its own and only code. *)
Definition echo (w : string) : list string := [w].

Definition adapter : RedisAdapter :=
  new_RedisAdapter "UserSearch" (Some phonetic).

Definition typeahead : RedisAdapter :=
  new_RedisAdapter "UserSearch" (Some prefix).

Definition whole_range (t : type_name) : option SearchOptions :=
  Some {| type := Some t;
          between := Some {| from := Some 0; to := Some (-1) |} |}.
End Sample.

(** ** Auxiliary definitions for the proofs *)

(** The keyspace after a batch. *)
Definition run_cmds (cs : list command) (d : keyspace) : keyspace :=
  (exec_all cs d).2.

(** A batch that keeps the index consistent. *)
Definition preserves (index : string) (cs : list command) : Prop :=
  ∀ d, consistent index d → consistent index (run_cmds cs d).

(** What [removeFromIndex] reads and the batch it then sends. *)
Definition constants_of (index id : string) (d : keyspace) : list string :=
  filter (λ m, score_from 0 (zset_at d (object_key index id)) m)
         (descending (zset_at d (object_key index id))).

Definition remove_cmds (index id : string) (constants : list string)
  : list command :=
  DEL (object_key index id) :: ((λ c, ZREM (word_key index c) id) <$> constants).

(** The batch of a phonetic search. *)
Definition search_cmds (tkey : string) (type : store_command)
  (keys : list string) (start stop : Z) : list command :=
  [ZSTORE type tkey keys; ZRANGE tkey start stop true;
   ZREMRANGEBYRANK tkey start stop].

(** The commands of a [set] batch are all of this form: an addition, or
    an addition the server refuses. *)
Definition is_zadd (c : command) : Prop :=
  match c with
  | ZADD _ _ _ => True
  | ZADD_TEXT _ s _ => score_of_text s = None
  | _ => False
  end.

Section QueryKeys.
Variable nStem : string → string.
Variable nMetaphone : string → list string.

(** The keys a phonetic query combines. *)
Definition query_keys (index text : string) : option (list string) :=
  metaphoneKeys (processLanguage nStem nMetaphone text (IdStr index)).
End QueryKeys.

(** The key a command writes, if any. *)
Definition target (c : command) : option string :=
  match c with
  | ZADD k _ _ | ZADD_TEXT k _ _ | ZREM k _ | DEL k | ZSTORE _ k _
  | ZREMRANGEBYRANK k _ _ =>
      Some k
  | ZRANGE _ _ _ _ | ZREVRANGEBYSCORE _ _ => None
  end.

(** No key holds an empty sorted set. *)
Definition normal (d : keyspace) : Prop :=
  ∀ k z, d !! k = Some z → z ≠ ∅.

(** [m] is a member of the sorted set at [k]. *)
Definition posted (d : keyspace) (k m : string) : Prop :=
  is_Some (zscore d k m).

(** [p] is a non-empty left-anchored substring of [w]. *)
Definition is_prefix (p w : string) : Prop :=
  p ≠ "" ∧ ∃ rest, w = p +:+ rest.

(** The members a combination keeps: those posted under every key, or
    under some key. *)
Definition selected (op : store_command) (d : keyspace)
  (keys : list string) (m : string) : Prop :=
  match op with
  | zinterstore => ∀ k, k ∈ keys → posted d k m
  | zunionstore => ∃ k, k ∈ keys ∧ posted d k m
  end.

(** A call that does not delete document [id]. *)
Definition keeps (id : string) (o : op) : Prop :=
  match o with
  | OpDelete id' => to_string id' ≠ id
  | _ => True
  end.

(** The batch of a prefix-mode [set]. *)
Definition typeahead_cmds (index : string) (id : ident)
  (tokenObj : ProcessTokens) : list command :=
  (λ key, ZADD (token_key index key) 0 (to_string id))
    <$> token_keys tokenObj.

(** The separator of a cache key. *)
Definition cache_sep (op : store_command) : string :=
  match op with
  | zinterstore => "&"
  | zunionstore => "|"
  end.

(** The documents a history has indexed, as the store names them. *)
Definition indexed (ops : list op) : list string :=
  omap (λ o, match o with
             | OpSet id _ => Some (to_string id)
             | _ => None
             end) ops.

(** Every member of a word or token posting set is one of [ids]. *)
Definition postings_among (index : string) (ids : list string)
  (d : keyspace) : Prop :=
  ∀ a m,
    (posted d (word_key index a) m → m ∈ ids)
    ∧ (posted d (token_key index a) m → m ∈ ids).

(** ** Key names never collide *)

Section Keys.
Variable index : string.

#[global] Instance word_key_inj : Inj (=) (=) (word_key index).
Proof.
  intros c1 c2 H. unfold word_key in H.
  apply (inj (String.app index)) in H. by injection H.
Qed.

#[global] Instance object_key_inj : Inj (=) (=) (object_key index).
Proof.
  intros c1 c2 H. unfold object_key in H.
  apply (inj (String.app index)) in H. by injection H.
Qed.

Lemma word_key_not_object c m : word_key index c ≠ object_key index m.
Proof.
  unfold word_key, object_key. intros H.
  apply (inj (String.app index)) in H. discriminate H.
Qed.

Lemma tmp_key_not_word c : tmp_key index ≠ word_key index c.
Proof.
  unfold word_key, tmp_key. intros H.
  apply (inj (String.app index)) in H. discriminate H.
Qed.

Lemma tmp_key_not_object m : tmp_key index ≠ object_key index m.
Proof.
  unfold object_key, tmp_key. intros H.
  apply (inj (String.app index)) in H. discriminate H.
Qed.
End Keys.

(** ** The effect of each command on scores *)

Lemma run_cmds_nil d : run_cmds [] d = d.
Proof. done. Qed.

Lemma run_cmds_cons c cs d : run_cmds (c :: cs) d = run_cmds cs (exec c d).2.
Proof.
  unfold run_cmds. simpl. destruct (exec c d) as [r d1]. simpl.
  by destruct (exec_all cs d1).
Qed.

Lemma run_cmds_app cs1 cs2 d :
  run_cmds (cs1 ++ cs2) d = run_cmds cs2 (run_cmds cs1 d).
Proof.
  revert d. induction cs1 as [|c cs1 IH]; intros d; [done|].
  simpl. by rewrite !run_cmds_cons, IH.
Qed.

Lemma zset_at_put k z d k' :
  zset_at (put k z d) k' = if decide (k = k') then z else zset_at d k'.
Proof.
  unfold zset_at, put. destruct (decide (z = ∅)) as [->|Hz].
  - rewrite lookup_delete. by destruct (decide (k = k')).
  - rewrite lookup_insert. by destruct (decide (k = k')).
Qed.

Lemma zscore_zset_at d k m : zscore d k m = zset_at d k !! m.
Proof. unfold zscore, zset_at. by destruct (d !! k). Qed.

Lemma zscore_put k z d k' m :
  zscore (put k z d) k' m = if decide (k = k') then z !! m else zscore d k' m.
Proof.
  rewrite !zscore_zset_at, zset_at_put. by destruct (decide (k = k')).
Qed.

Lemma put_put k z z' d : put k z (put k z' d) = put k z d.
Proof.
  unfold put. destruct (decide (z = ∅)), (decide (z' = ∅)).
  - by rewrite delete_delete_eq.
  - by rewrite delete_insert_eq.
  - by rewrite insert_delete_eq.
  - by rewrite insert_insert_eq.
Qed.

Lemma zscore_ZADD k sc m d k' m' :
  zscore (exec (ZADD k sc m) d).2 k' m'
  = if decide (k = k' ∧ m = m') then Some sc else zscore d k' m'.
Proof.
  simpl. unfold zscore at 1. rewrite lookup_insert.
  destruct (decide (k = k')) as [->|Hk]; simpl.
  - rewrite lookup_insert. destruct (decide (m = m')) as [->|Hm].
    + by rewrite decide_True.
    + rewrite decide_False by (intros [? ?]; congruence). by rewrite zscore_zset_at.
  - by rewrite decide_False by (intros [? ?]; congruence).
Qed.

Lemma zscore_ZREM k m d k' m' :
  zscore (exec (ZREM k m) d).2 k' m'
  = if decide (k = k' ∧ m = m') then None else zscore d k' m'.
Proof.
  simpl. rewrite zscore_put. destruct (decide (k = k')) as [->|Hk].
  - rewrite lookup_delete. destruct (decide (m = m')) as [->|Hm].
    + by rewrite decide_True.
    + rewrite decide_False by (intros [? ?]; congruence). by rewrite zscore_zset_at.
  - by rewrite decide_False by (intros [? ?]; congruence).
Qed.

Lemma zscore_DEL k d k' m' :
  zscore (exec (DEL k) d).2 k' m'
  = if decide (k = k') then None else zscore d k' m'.
Proof.
  simpl. unfold zscore. rewrite lookup_delete.
  by destruct (decide (k = k')).
Qed.

(** ** Rank listings and combinations *)

Lemma elem_of_ascending (z : zset) m : m ∈ ascending z ↔ is_Some (z !! m).
Proof.
  unfold ascending. rewrite list_elem_of_fmap. split.
  - intros [[m' sc] [-> H]]. rewrite merge_sort_Permutation in H.
    apply elem_of_map_to_list in H. by exists sc.
  - intros [sc H]. exists (m, sc). split; [done|].
    rewrite merge_sort_Permutation. by apply elem_of_map_to_list.
Qed.

Lemma elem_of_descending (z : zset) m : m ∈ descending z ↔ is_Some (z !! m).
Proof. unfold descending. by rewrite elem_of_reverse, elem_of_ascending. Qed.

Lemma window_subseteq {A} (l : list A) start stop : window l start stop ⊆ l.
Proof.
  unfold window. case_match; [by intros x ?%not_elem_of_nil|].
  etrans; [apply subseteq_take|apply subseteq_drop].
Qed.

Lemma inter_all_dom (z : zset) zs m :
  is_Some (inter_all (z :: zs) !! m) → is_Some (z !! m).
Proof.
  simpl. revert z. induction zs as [|a zs IH]; intros z; [done|].
  simpl. intros H%IH. rewrite lookup_intersection_with in H.
  destruct (z !! m); [done|]. by destruct H.
Qed.

Lemma union_all_dom (zs : list zset) m :
  is_Some (union_all zs !! m) → ∃ z, z ∈ zs ∧ is_Some (z !! m).
Proof.
  unfold union_all.
  cut (∀ acc : zset,
         is_Some (foldl (union_with (λ a b, Some (a + b))) acc zs !! m) →
         is_Some (acc !! m) ∨ ∃ z, z ∈ zs ∧ is_Some (z !! m)).
  { intros H Hm. destruct (H _ Hm) as [[? Hx]|?]; [|done].
    by rewrite lookup_empty in Hx. }
  induction zs as [|a zs IH]; intros acc; simpl; [by left|].
  intros [H|(z & ? & ?)]%IH.
  - rewrite lookup_union_with in H.
    destruct (acc !! m) eqn:?; [left; eauto|].
    destruct (a !! m) eqn:Ha; [|by destruct H].
    right. exists a. split; [left|]. by rewrite Ha.
  - right. exists z. split; [by right|done].
Qed.

Lemma combine_dom op (zs : list zset) m :
  zs ≠ [] → is_Some (combine op zs !! m) → ∃ z, z ∈ zs ∧ is_Some (z !! m).
Proof.
  intros Hne. destruct op; simpl.
  - destruct zs as [|z zs]; [done|]. intros H%inter_all_dom.
    exists z. split; [left|done].
  - apply union_all_dom.
Qed.

(** ** The requests behind [send] and [multi] *)

Lemma send_eq c cl :
  send c cl
  = (Return (exec c (db cl)).1,
     Client (exec c (db cl)).2 (sent cl ++ [Single c])).
Proof. unfold send, call. by destruct (exec c (db cl)). Qed.

Lemma multi_eq cs cl :
  multi cs cl
  = (Return (exec_all cs (db cl)).1,
     Client (run_cmds cs (db cl)) (sent cl ++ [Multi cs])).
Proof.
  unfold multi, multi_exec, run_cmds. by destruct (exec_all cs (db cl)).
Qed.

(** ** Dictionaries *)

Lemma get_set {V} (o : dict V) k v k' :
  JS.get (JS.set o k v) k' = if decide (k = k') then Some v else JS.get o k'.
Proof.
  induction o as [|[k0 v0] o IH]; simpl.
  - by destruct (decide (k = k')).
  - destruct (decide (k0 = k)) as [->|Hk0]; simpl.
    + by destruct (decide (k = k')).
    + destruct (decide (k0 = k')) as [->|?]; [|done].
      by rewrite decide_False by done.
Qed.

Lemma get_assign {V} (o : dict V) k v k' :
  JS.get (assign o k v) k'
  = if decide (k = k' ∧ k ≠ "__proto__") then Some v else JS.get o k'.
Proof.
  unfold assign. destruct (decide (k = "__proto__")) as [->|Hk].
  - by rewrite decide_False by (by intros [_ ?]).
  - rewrite get_set. destruct (decide (k = k')) as [->|?].
    + by rewrite decide_True.
    + by rewrite decide_False by (by intros [? _]).
Qed.

Lemma append_cons c s t : String c s +:+ t = String c (s +:+ t).
Proof. done. Qed.

Lemma append_nil_r s : s +:+ "" = s.
Proof. induction s as [|c s IH]; [done|]. by rewrite append_cons, IH. Qed.

Lemma append_assoc s t u : (s +:+ t) +:+ u = s +:+ t +:+ u.
Proof. induction s as [|c s IH]; [done|]. by rewrite !append_cons, IH. Qed.

Lemma occurrences_cons w x ws :
  occurrences w (x :: ws)
  = (if decide (x = w) then 1 else 0) + occurrences w ws.
Proof.
  unfold occurrences. rewrite filter_cons.
  destruct (decide (x = w)); simpl; lia.
Qed.

Lemma occurrences_nonneg w ws : 0 ≤ occurrences w ws.
Proof. unfold occurrences. lia. Qed.

Lemma occurrences_pos w ws : w ∈ ws → 1 ≤ occurrences w ws.
Proof.
  induction 1 as [w ws|w x ws _ IH]; rewrite occurrences_cons.
  - rewrite decide_True by done. pose proof (occurrences_nonneg w ws). lia.
  - destruct (decide (x = w)); lia.
Qed.

Lemma occurrences_absent w ws : w ∉ ws → occurrences w ws = 0.
Proof.
  induction ws as [|x ws IH]; intros Hw; [done|].
  rewrite occurrences_cons, decide_False, IH; set_solver.
Qed.

(** The text of an inherited member starts like no number. *)
Lemma inherited_text w text :
  inherited w = Some text →
  ∃ c rest, text = String c rest ∧ (c = "f" ∨ c = "[")%char.
Proof.
  unfold inherited, native. intros H.
  repeat case_decide; simplify_eq; eexists _, _; (split; [reflexivity|]);
    auto.
Qed.

Lemma score_of_text_inherited w text rest :
  inherited w = Some text → score_of_text (text +:+ rest) = None.
Proof.
  intros (c & r & -> & [-> | ->])%inherited_text; by rewrite append_cons.
Qed.

(** A count is either a number of occurrences or a text the server
    refuses as a score. *)
Lemma tally_cases w n :
  (plain w ∧ tally w n = Num n)
  ∨ (¬ plain w ∧ ∃ s, tally w n = Str s ∧ score_of_text s = None).
Proof.
  unfold tally, plain. destruct (inherited w) as [text|] eqn:Hw.
  - right. split; [done|]. eexists. split; [done|].
    by eapply score_of_text_inherited.
  - by left.
Qed.

Lemma tally_succ obj w n :
  0 ≤ n →
  JS.get obj w = (if decide (1 ≤ n) then Some (tally w n) else None) →
  increment obj w = tally w (n + 1).
Proof.
  intros Hn Hget. unfold increment, tally in *. rewrite Hget.
  destruct (decide (1 ≤ n)) as [H1|H1].
  - destruct (inherited w) as [text|] eqn:Hw.
    + destruct (inherited_text _ _ Hw) as (c & r & -> & _).
      rewrite decide_False by (by rewrite append_cons).
      replace (Z.to_nat (n + 1)) with (S (Z.to_nat n)) by lia.
      simpl. by rewrite append_assoc.
    + destruct (Z.eqb_spec n 0); [lia|done].
  - assert (n = 0) as -> by lia. by destruct (inherited w).
Qed.

(** [wordLength] tallies the occurrences of every word but [__proto__],
    for which it stores nothing. *)
Lemma wordLength_get ws w :
  JS.get (wordLength ws) w
  = if decide (w ∈ ws ∧ w ≠ "__proto__")
    then Some (tally w (occurrences w ws)) else None.
Proof.
  unfold wordLength.
  cut (∀ (acc : dict value) n,
         0 ≤ n →
         JS.get acc w
         = (if decide (1 ≤ n ∧ w ≠ "__proto__")
            then Some (tally w n) else None) →
         JS.get (foldl (λ obj w, assign obj w (increment obj w)) acc ws) w
         = if decide (1 ≤ n + occurrences w ws ∧ w ≠ "__proto__")
           then Some (tally w (n + occurrences w ws)) else None).
  { intros H. rewrite (H [] 0) by done. simpl.
    destruct (decide (w ∈ ws)) as [Hw|Hw].
    - pose proof (occurrences_pos _ _ Hw).
      destruct (decide (w = "__proto__")).
      + by rewrite !decide_False by (by intros [_ ?]).
      + rewrite (decide_True (P := w ∈ ws ∧ _)) by done.
        by rewrite decide_True by (split; [lia|done]).
    - rewrite (occurrences_absent _ _ Hw).
      rewrite (decide_False (P := w ∈ ws ∧ _)) by (by intros [? _]).
      by rewrite decide_False by (intros [? _]; lia). }
  induction ws as [|x ws IH]; intros acc n Hn Hacc; simpl.
  - unfold occurrences. simpl. by rewrite Z.add_0_r.
  - rewrite occurrences_cons. destruct (decide (x = w)) as [->|Hx].
    + rewrite Z.add_assoc. apply IH; [lia|]. rewrite get_assign.
      destruct (decide (w = "__proto__")) as [Hp|Hp].
      * rewrite decide_False by (by intros [_ ?]).
        rewrite Hacc. by rewrite !decide_False by (by intros [_ ?]).
      * rewrite !decide_True by (split; [done || lia|done]).
        f_equal. apply tally_succ; [done|]. rewrite Hacc.
        destruct (decide (1 ≤ n)).
        -- by rewrite decide_True.
        -- by rewrite decide_False by (by intros [? _]).
    + rewrite Z.add_0_l. apply IH; [done|]. rewrite get_assign.
      by rewrite decide_False by (by intros [? _]).
Qed.

(** ** Forward and reverse entries stay mirrored *)

Ltac key_clash :=
  repeat match goal with
  | H : _ ∧ _ |- _ => destruct H
  | H : word_key _ _ = object_key _ _ |- _ =>
      by destruct (word_key_not_object _ _ _ H)
  | H : object_key _ _ = word_key _ _ |- _ =>
      symmetry in H; by destruct (word_key_not_object _ _ _ H)
  | H : tmp_key _ = word_key _ _ |- _ => by destruct (tmp_key_not_word _ _ H)
  | H : tmp_key _ = object_key _ _ |- _ =>
      by destruct (tmp_key_not_object _ _ H)
  | H : word_key ?i _ = word_key ?i _ |- _ =>
      apply (inj (word_key i)) in H; subst
  | H : object_key ?i _ = object_key ?i _ |- _ =>
      apply (inj (object_key i)) in H; subst
  end.

Lemma preserves_nil index : preserves index [].
Proof. by intros d. Qed.

Lemma preserves_app index cs1 cs2 :
  preserves index cs1 → preserves index cs2 → preserves index (cs1 ++ cs2).
Proof. intros H1 H2 d Hd. rewrite run_cmds_app. auto. Qed.

Lemma preserves_bind {A} index (f : A → list command) (l : list A) :
  (∀ x, x ∈ l → preserves index (f x)) → preserves index (l ≫= f).
Proof.
  induction l as [|x l IH]; intros H; [apply preserves_nil|].
  change ((x :: l) ≫= f) with (f x ++ (l ≫= f)).
  apply preserves_app; [apply H; left|].
  apply IH. intros y Hy. apply H. by right.
Qed.

Lemma exec_refused k s m d :
  score_of_text s = None → (exec (ZADD_TEXT k s m) d).2 = d.
Proof. intros H. simpl. by rewrite H. Qed.

(** The two commands of a code are refused together. *)
Lemma code_cmds_refused index id s wordKey d :
  score_of_text s = None →
  run_cmds (code_cmds index id (Str s) wordKey) d = d.
Proof.
  intros H. unfold code_cmds, zadd.
  by rewrite !run_cmds_cons, run_cmds_nil, !exec_refused.
Qed.

Lemma preserves_code_cmds index id w n wordKey :
  1 ≤ n → preserves index (code_cmds index id (tally w n) wordKey).
Proof.
  intros Hn d [Hm Hc].
  destruct (tally_cases w n) as [[_ ->]|[_ (s & -> & Hs)]];
    [|by rewrite code_cmds_refused].
  unfold code_cmds, zadd.
  rewrite !run_cmds_cons, run_cmds_nil. split.
  - intros code m sc. rewrite !zscore_ZADD.
    repeat case_decide; key_clash; intros; simplify_eq; eauto; naive_solver.
  - intros m code sc. rewrite !zscore_ZADD.
    repeat case_decide; key_clash; intros; simplify_eq; eauto; naive_solver.
Qed.

Lemma elem_of_keys {V} (o : dict V) k : k ∈ JS.keys o ↔ k ∈ o.*1.
Proof.
  unfold JS.keys. rewrite elem_of_app, list_elem_of_fmap, list_elem_of_filter.
  split.
  - intros [[[n k'] [-> H]]|[_ H]]; [|done].
    rewrite merge_sort_Permutation in H.
    apply list_elem_of_omap in H as (k0 & Hk0 & Hn).
    destruct (array_index k0); by simplify_eq/=.
  - intros H. destruct (array_index k) as [n|] eqn:Hn; [left|by right].
    exists (n, k). split; [done|]. rewrite merge_sort_Permutation.
    apply list_elem_of_omap. exists k. by rewrite Hn.
Qed.

Lemma set_names {V} (o : dict V) k v k' :
  k' ∈ (JS.set o k v).*1 ↔ k' = k ∨ k' ∈ o.*1.
Proof.
  induction o as [|[k0 v0] o IH]; simpl.
  - rewrite list_elem_of_singleton. set_solver.
  - destruct (decide (k0 = k)) as [->|?]; simpl; set_solver.
Qed.

Lemma assign_names {V} (o : dict V) k v k' :
  k' ∈ (assign o k v).*1 ↔ (k' = k ∧ k ≠ "__proto__") ∨ k' ∈ o.*1.
Proof.
  unfold assign. destruct (decide (k = "__proto__")) as [->|?].
  - naive_solver.
  - rewrite set_names. naive_solver.
Qed.

(** The names of the metaphone map are the stemmed words other than
    [__proto__]. *)
Section MetaphoneMap.
Variable nMetaphone : string → list string.

Lemma generateMetaphoneMap_spec ws :
  (∀ w, w ∈ (generateMetaphoneMap nMetaphone ws).*1
        ↔ w ∈ ws ∧ w ≠ "__proto__")
  ∧ (∀ w, w ∈ ws → w ≠ "__proto__" →
       JS.get (generateMetaphoneMap nMetaphone ws) w = Some (nMetaphone w)).
Proof.
  unfold generateMetaphoneMap.
  cut (∀ acc : dict (list string),
         let o := foldl (λ obj w, assign obj w (nMetaphone w)) acc ws in
         (∀ w, w ∈ o.*1 ↔ (w ∈ ws ∧ w ≠ "__proto__") ∨ w ∈ acc.*1)
         ∧ (∀ w, JS.get o w
              = if decide (w ∈ ws ∧ w ≠ "__proto__")
                then Some (nMetaphone w) else JS.get acc w)).
  { intros H. destruct (H []) as [H1 H2]. split.
    - intros w. rewrite H1. simpl. set_solver.
    - intros w Hw Hp. by rewrite H2, decide_True. }
  induction ws as [|x ws IH]; intros acc; cbv zeta.
  - split; [set_solver|]. intros w.
    by rewrite decide_False by set_solver.
  - destruct (IH (assign acc x (nMetaphone x))) as [H1 H2].
    change (foldl ?f acc (x :: ws)) with (foldl f (f acc x) ws).
    split.
    + intros w. rewrite H1, assign_names. set_solver.
    + intros w. rewrite H2, get_assign.
      repeat case_decide; set_solver.
Qed.
End MetaphoneMap.

Section Preservation.
Variable nStem : string → string.
Variable nMetaphone : string → list string.
Variable toLocaleLowerCase : string → string.
Variable localeCompare : string → string → Z.

Lemma keys_processLanguage text id w :
  w ∈ keys (processLanguage nStem nMetaphone text id)
  ↔ w ∈ getStemWords nStem (getWords text) ∧ w ≠ "__proto__".
Proof.
  simpl. rewrite elem_of_keys.
  apply (generateMetaphoneMap_spec nMetaphone).
Qed.

(** What [writeToMetaphoneIndex] reads for a name of [keys]. *)
Lemma processLanguage_at text id w :
  let p := processLanguage nStem nMetaphone text id in
  w ∈ keys p →
  JS.get (map p) w = Some (nMetaphone w)
  ∧ JS.get (counts p) w = Some (tally w (occurrences w (words p)))
  ∧ 1 ≤ occurrences w (words p).
Proof.
  intros p [Hw Hp]%keys_processLanguage. cbn [map counts words p processLanguage].
  split; [by apply (generateMetaphoneMap_spec nMetaphone)|].
  split; [|by apply occurrences_pos].
  by rewrite wordLength_get, decide_True.
Qed.

Lemma preserves_metaphone_cmds index id text pid :
  preserves index
    (metaphone_cmds index id (processLanguage nStem nMetaphone text pid)).
Proof.
  unfold metaphone_cmds. apply preserves_bind. intros w Hw.
  apply preserves_bind. intros c _.
  destruct (processLanguage_at text pid w Hw) as (_ & -> & Hn).
  by apply preserves_code_cmds.
Qed.

Lemma db_setMetaphone this id text cl :
  db (setMetaphone nStem nMetaphone this id text cl).2
  = run_cmds
      (metaphone_cmds (index this) id
         (processLanguage nStem nMetaphone text id))
      (db cl).
Proof.
  unfold setMetaphone, writeToMetaphoneIndex, mbind, async_bind.
  by rewrite multi_eq.
Qed.

Lemma consistent_setMetaphone this id text cl :
  consistent (index this) (db cl) →
  consistent (index this)
    (db (setMetaphone nStem nMetaphone this id text cl).2).
Proof. rewrite db_setMetaphone. apply preserves_metaphone_cmds. Qed.
End Preservation.

(** *** Deletion *)

Lemma removeFromIndex_eq index id cl :
  removeFromIndex index id cl
  = let cs := remove_cmds index (to_string id)
                (constants_of index (to_string id) (db cl)) in
    (Return (exec_all cs (db cl)).1,
     Client (run_cmds cs (db cl))
       (sent cl ++ [Single (ZREVRANGEBYSCORE
                              (object_key index (to_string id)) 0);
                    Multi cs])).
Proof.
  unfold removeFromIndex, mbind, async_bind. rewrite send_eq.
  cbn [exec fst snd members]. rewrite multi_eq. cbn [db sent].
  by rewrite <-app_assoc.
Qed.

Lemma elem_of_constants_of index id d c :
  c ∈ constants_of index id d
  ↔ ∃ sc, zscore d (object_key index id) c = Some sc ∧ 0 ≤ sc.
Proof.
  unfold constants_of. rewrite list_elem_of_filter, elem_of_descending.
  rewrite zscore_zset_at. unfold score_from.
  destruct (zset_at d (object_key index id) !! c) as [sc|]; simpl.
  - rewrite bool_decide_spec. split.
    + intros [? _]. eauto.
    + intros (sc' & [= <-] & ?). eauto.
  - split; [by intros [[] _]|]. by intros (? & ? & _).
Qed.

Lemma zscore_zrems index id cs d k m :
  zscore (run_cmds ((λ c, ZREM (word_key index c) id) <$> cs) d) k m
  = if decide (m = id ∧ k ∈ word_key index <$> cs)
    then None else zscore d k m.
Proof.
  revert d. induction cs as [|c cs IH]; intros d.
  - rewrite decide_False; [done|]. intros (_ & []%not_elem_of_nil).
  - rewrite !fmap_cons, run_cmds_cons, IH, zscore_ZREM.
    repeat case_decide; set_solver.
Qed.

Lemma zscore_remove_cmds index id cs d k m :
  zscore (run_cmds (remove_cmds index id cs) d) k m
  = if decide (k = object_key index id
               ∨ (m = id ∧ k ∈ word_key index <$> cs))
    then None else zscore d k m.
Proof.
  unfold remove_cmds. rewrite run_cmds_cons, zscore_zrems, zscore_DEL.
  repeat case_decide; naive_solver.
Qed.

Lemma db_delete this id cl :
  db (delete this id cl).2
  = run_cmds
      (remove_cmds (index this) (to_string id)
         (constants_of (index this) (to_string id) (db cl)))
      (db cl).
Proof.
  unfold delete, mbind, async_bind. by rewrite removeFromIndex_eq.
Qed.

Lemma not_object_in_words index m (cs : list string) :
  object_key index m ∉ word_key index <$> cs.
Proof. intros (c & H & _)%list_elem_of_fmap. key_clash. Qed.

Lemma consistent_remove index id d :
  consistent index d →
  consistent index
    (run_cmds (remove_cmds index id (constants_of index id d)) d).
Proof.
  intros [Hm Hc]. split.
  - intros code m sc. rewrite !zscore_remove_cmds.
    case_decide as Hfw; [done|]. intros Hsc.
    destruct (decide (m = id)) as [->|Hne].
    + destruct Hfw. right. split; [done|].
      apply list_elem_of_fmap_2, elem_of_constants_of.
      exists sc. split; [by apply Hm|].
      apply Hm, Hc in Hsc. lia.
    + rewrite decide_False; [by apply Hm|].
      intros [?|[_ []%not_object_in_words]]. key_clash. done.
  - intros m code sc. rewrite zscore_remove_cmds.
    case_decide; [done|]. apply Hc.
Qed.

(** After the removal no forward posting set mentions the document and
    its reverse index is gone. *)
Lemma forward_gone index id d code :
  consistent index d →
  zscore (run_cmds (remove_cmds index id (constants_of index id d)) d)
    (word_key index code) id = None.
Proof.
  intros [Hm Hc]. rewrite zscore_remove_cmds.
  case_decide as Hfw; [done|].
  destruct (zscore d (word_key index code) id) as [sc|] eqn:Hsc; [|done].
  destruct Hfw. right. split; [done|].
  apply list_elem_of_fmap_2, elem_of_constants_of.
  exists sc. split; [by apply Hm|]. apply Hm, Hc in Hsc. lia.
Qed.

Lemma reverse_gone index id cs d :
  zset_at (run_cmds (remove_cmds index id cs) d) (object_key index id) = ∅.
Proof.
  apply map_eq. intros c.
  rewrite <-zscore_zset_at, zscore_remove_cmds, lookup_empty.
  by rewrite decide_True by by left.
Qed.

(** *** Phonetic search *)

Lemma exec_search_cmds tkey type keys start stop d :
  let z := combine type (zset_at d <$> keys) in
  exec_all (search_cmds tkey type keys start stop) d
  = ([Integer (Z.of_nat (size z));
      Array (window (descending z) start stop);
      Integer (Z.of_nat (length (window (ascending z) start stop)))],
     put tkey (remove_members (window (ascending z) start stop) z) d).
Proof.
  intros z. unfold search_cmds. cbn [exec_all exec]. fold z.
  rewrite !zset_at_put, !decide_True by done. by rewrite put_put.
Qed.

Section PhoneticSearch.
Variable nStem : string → string.
Variable nMetaphone : string → list string.

Lemma metaphoneSearch_eq this text options cl :
  metaphoneSearch nStem nMetaphone this text options cl
  = match query_keys nStem nMetaphone (index this) text with
    | None | Some [] => (Return [], cl)
    | Some keys =>
        let cs := search_cmds (tmp_key (index this)) (search_type options)
                    keys (search_start options) (search_stop options) in
        let z := combine (search_type options) (zset_at (db cl) <$> keys) in
        (Return (window (descending z)
                   (search_start options) (search_stop options)),
         Client (run_cmds cs (db cl)) (sent cl ++ [Multi cs]))
    end.
Proof.
  unfold metaphoneSearch, query_keys.
  destruct (metaphoneKeys _) as [[|k keys]|]; [done| |done].
  unfold mbind, async_bind. fold (search_cmds (tmp_key (index this))
    (search_type options) (k :: keys) (search_start options)
    (search_stop options)).
  rewrite multi_eq. by rewrite exec_search_cmds.
Qed.

Lemma query_keys_words index text k :
  query_keys nStem nMetaphone index text = Some k →
  ∃ codes, k = word_key index <$> codes.
Proof.
  unfold query_keys. simpl. case_match; [|done]. intros [= <-].
  by eexists.
Qed.
End PhoneticSearch.

Lemma run_search_cmds tkey type keys start stop d :
  ∃ z, run_cmds (search_cmds tkey type keys start stop) d = put tkey z d.
Proof. unfold run_cmds. rewrite exec_search_cmds. by eexists. Qed.

Lemma run_search_cmds_eq tkey type keys start stop d :
  let z := combine type (zset_at d <$> keys) in
  run_cmds (search_cmds tkey type keys start stop) d
  = put tkey (remove_members (window (ascending z) start stop) z) d.
Proof. unfold run_cmds. by rewrite exec_search_cmds. Qed.

Lemma zset_at_put_others tkey z d (keys : list string) :
  tkey ∉ keys → zset_at (put tkey z d) <$> keys = zset_at d <$> keys.
Proof.
  intros H. apply list_fmap_ext. intros i k Hk. rewrite zset_at_put.
  rewrite decide_False; [done|]. intros ->. apply H.
  by eapply list_elem_of_lookup_2.
Qed.

Lemma tmp_key_not_in_words index (codes : list string) :
  tmp_key index ∉ word_key index <$> codes.
Proof. intros (c & H & _)%list_elem_of_fmap. key_clash. Qed.

Section RepeatedSearch.
Variable nStem : string → string.
Variable nMetaphone : string → list string.

(** C2, as amended. Phonetic strategy: a search sends one batch that
    writes the combination to the ephemeral key, reads the window
    [from, to] in descending score order and removes the ranks
    [from, to] (counted in ascending score order) from the ephemeral key;
    as each search first overwrites the ephemeral key with the fresh
    combination, a second identical search on the store left by the
    first returns the same page and leaves the same keyspace. *)
Theorem repeated_search_same_page this text options cl :
  let r1 := metaphoneSearch nStem nMetaphone this text options cl in
  let r2 := metaphoneSearch nStem nMetaphone this text options r1.2 in
  let tkey := tmp_key (index this) in
  let start := search_start options in
  let stop := search_stop options in
  r2.1 = r1.1 ∧ db r2.2 = db r1.2
  ∧ match query_keys nStem nMetaphone (index this) text with
    | None | Some [] => r1 = (Return [], cl)
    | Some keys =>
        let z := combine (search_type options) (zset_at (db cl) <$> keys) in
        sent r1.2
        = sent cl ++ [Multi [ZSTORE (search_type options) tkey keys;
                             ZRANGE tkey start stop true;
                             ZREMRANGEBYRANK tkey start stop]]
        ∧ r1.1 = Return (window (descending z) start stop)
        ∧ zset_at (db r1.2) tkey
          = remove_members (window (ascending z) start stop) z
    end.
Proof.
  intros r1 r2 tkey start stop. subst r2 r1.
  rewrite !metaphoneSearch_eq.
  destruct (query_keys _ _ _ _) as [[|k keys]|] eqn:Hk; [done| |done].
  cbn [fst snd db sent].
  destruct (query_keys_words _ _ _ _ _ Hk) as [codes Hcodes].
  rewrite !run_search_cmds_eq, put_put, zset_at_put, decide_True by done.
  rewrite zset_at_put_others
    by (rewrite Hcodes; apply tmp_key_not_in_words).
  done.
Qed.
End RepeatedSearch.

Lemma consistent_put_tmp index z d :
  consistent index d → consistent index (put (tmp_key index) z d).
Proof.
  intros [Hm Hc]. split.
  - intros code m sc. rewrite !zscore_put.
    repeat case_decide; key_clash. apply Hm.
  - intros m code sc. rewrite !zscore_put.
    repeat case_decide; key_clash. apply Hc.
Qed.

Lemma consistent_empty index : consistent index ∅.
Proof. split; intros ???; unfold zscore; by rewrite lookup_empty. Qed.

Section Reachable.
Variable nStem : string → string.
Variable nMetaphone : string → list string.
Variable toLocaleLowerCase : string → string.
Variable localeCompare : string → string → Z.

Local Abbreviation step_ :=
  (step nStem nMetaphone toLocaleLowerCase localeCompare).
Local Abbreviation run_ :=
  (run nStem nMetaphone toLocaleLowerCase localeCompare).

Lemma consistent_metaphoneSearch this text options cl :
  consistent (index this) (db cl) →
  consistent (index this)
    (db (metaphoneSearch nStem nMetaphone this text options cl).2).
Proof.
  intros H. rewrite metaphoneSearch_eq.
  destruct (query_keys _ _ _ _) as [[|k keys]|]; [done| |done].
  cbn [snd db].
  destruct (run_search_cmds (tmp_key (index this)) (search_type options)
              (k :: keys) (search_start options) (search_stop options)
              (db cl)) as [z ->].
  by apply consistent_put_tmp.
Qed.

Lemma consistent_step this cl o :
  mode this = phonetic →
  consistent (index this) (db cl) →
  consistent (index this) (db (step_ this cl o)).
Proof.
  intros Hmode H. destruct o as [id text|id|text options]; simpl.
  - unfold set. rewrite Hmode. by apply consistent_setMetaphone.
  - rewrite db_delete. by apply consistent_remove.
  - unfold search. rewrite Hmode. by apply consistent_metaphoneSearch.
Qed.

(** Every state a phonetic adapter reaches from the empty store is
    consistent. *)
Lemma consistent_run this ops :
  mode this = phonetic → consistent (index this) (db (run_ this ops)).
Proof.
  intros Hmode. unfold run.
  cut (∀ cl, consistent (index this) (db cl) →
             consistent (index this) (db (foldl (step_ this) cl ops))).
  { intros H. apply H, consistent_empty. }
  induction ops as [|o ops IH]; intros cl Hcl; [done|].
  simpl. by apply IH, consistent_step.
Qed.

(** C5. Phonetic strategy: after any sequence of completed calls the
    forward posting sets are mirrored, entry by entry and score by score,
    in the reverse indexes; [delete(id)] sends one atomic batch that
    deletes the reverse index of [id] and removes [id] from every forward
    posting set, and leaves the index mirrored. *)
Theorem forward_reverse_mirrored name ops :
  let this := new_RedisAdapter name (Some phonetic) in
  let cl := run_ this ops in
  mirrored name (db cl)
  ∧ ∀ id,
      let cl' := (delete this id cl).2 in
      let key := object_key name (to_string id) in
      sent cl'
      = sent cl
        ++ [Single (ZREVRANGEBYSCORE key 0);
            Multi (DEL key
                   :: ((λ c, ZREM (word_key name c) (to_string id))
                         <$> constants_of name (to_string id) (db cl)))]
      ∧ zset_at (db cl') key = ∅
      ∧ (∀ code, zscore (db cl') (word_key name code) (to_string id) = None)
      ∧ mirrored name (db cl').
Proof.
  intros this cl.
  assert (consistent name (db cl)) as Hcl by by apply (consistent_run this).
  split; [apply Hcl|]. intros id cl' key. subst cl'.
  rewrite db_delete. unfold delete, mbind, async_bind.
  rewrite removeFromIndex_eq. cbn [snd sent]. split; [done|].
  split; [apply reverse_gone|].
  split; [intros code; by apply forward_gone|].
  by apply consistent_remove.
Qed.

(** C6. Phonetic strategy: once [delete(id)] has completed, a search for
    any text returns a list that does not contain [id]; and [delete(id)]
    on a store without a reverse index for [id] leaves the keyspace
    unchanged. *)
Theorem deleted_id_not_found name ops id text options :
  let this := new_RedisAdapter name (Some phonetic) in
  let cl' := (delete this id (run_ this ops)).2 in
  (∃ l, (search nStem nMetaphone toLocaleLowerCase localeCompare
           this text options cl').1 = Return l
        ∧ to_string id ∉ l)
  ∧ ∀ cl0, db cl0 !! object_key name (to_string id) = None →
           db (delete this id cl0).2 = db cl0.
Proof.
  intros this cl'. split.
  - assert (∀ code, zscore (db cl') (word_key name code) (to_string id)
                    = None) as Hgone.
    { intros code. subst cl'. rewrite db_delete.
      by apply forward_gone, (consistent_run this). }
    change (search ?a ?b ?c ?d this text options cl')
      with (metaphoneSearch a b this text options cl').
    rewrite metaphoneSearch_eq.
    destruct (query_keys _ _ _ _) as [[|k keys]|] eqn:Hk;
      [exists []; split; [done|apply not_elem_of_nil]
      | |exists []; split; [done|apply not_elem_of_nil]].
    eexists. split; [done|]. intros Hin%window_subseteq.
    apply elem_of_descending, combine_dom in Hin as (z & Hz & Hin); [|done].
    apply query_keys_words in Hk as [codes Hcodes]. rewrite Hcodes in Hz.
    apply list_elem_of_fmap in Hz as (key & -> & Hkey).
    apply list_elem_of_fmap in Hkey as (code & -> & _).
    rewrite <-zscore_zset_at in Hin. cbn [index this new_RedisAdapter] in Hin.
    rewrite Hgone in Hin. by destruct Hin.
  - intros cl0 Hnone. rewrite db_delete.
    cbn [index this new_RedisAdapter].
    unfold constants_of, zset_at. rewrite Hnone. simpl.
    unfold descending, ascending. rewrite map_to_list_empty. simpl.
    unfold remove_cmds. simpl.
    rewrite run_cmds_cons, run_cmds_nil. simpl. by apply delete_id.
Qed.
End Reachable.

(** ** Scores written by [set] *)

(** In a batch of ZADDs the last write the server accepts decides the
    score of an entry. *)
Lemma zscore_last_write cs d k m :
  Forall is_zadd cs →
  (∃ sc, ZADD k sc m ∈ cs) →
  ∃ sc, ZADD k sc m ∈ cs ∧ zscore (run_cmds cs d) k m = Some sc.
Proof.
  induction cs as [|c cs IH] using rev_ind; intros Hz [sc Hin].
  { by apply not_elem_of_nil in Hin. }
  apply Forall_app in Hz as [Hz Hc]. apply Forall_inv in Hc.
  rewrite run_cmds_app, run_cmds_cons, run_cmds_nil.
  destruct c as [k' sc' m'|k' s' m'| | | | | |]; try (exfalso; exact Hc).
  - rewrite zscore_ZADD. case_decide as Heq.
    + destruct Heq as [-> ->]. exists sc'. split; [|done].
      apply elem_of_app. right. by left.
    + apply elem_of_app in Hin as [Hin|Hin%list_elem_of_singleton].
      * destruct (IH Hz (ex_intro _ sc Hin)) as (sc0 & ? & ?).
        exists sc0. split; [|done]. apply elem_of_app. by left.
      * destruct Heq. by simplify_eq.
  - rewrite exec_refused by done.
    apply elem_of_app in Hin as [Hin|Hin%list_elem_of_singleton]; [|done].
    destruct (IH Hz (ex_intro _ sc Hin)) as (sc0 & ? & ?).
    exists sc0. split; [|done]. apply elem_of_app. by left.
Qed.

(** A batch of ZADDs that writes no accepted score to an entry leaves it
    as it was. *)
Lemma zscore_untouched cs d k m :
  Forall is_zadd cs →
  (∀ sc, ZADD k sc m ∉ cs) →
  zscore (run_cmds cs d) k m = zscore d k m.
Proof.
  induction cs as [|c cs IH] using rev_ind; intros Hz Hin; [done|].
  apply Forall_app in Hz as [Hz Hc]. apply Forall_inv in Hc.
  rewrite run_cmds_app, run_cmds_cons, run_cmds_nil.
  assert (∀ sc, ZADD k sc m ∉ cs) as Hcs.
  { intros sc H. apply (Hin sc), elem_of_app. by left. }
  destruct c as [k' sc' m'|k' s' m'| | | | | |]; try (exfalso; exact Hc).
  - rewrite zscore_ZADD. case_decide as Heq; [|by apply IH].
    destruct Heq as [-> ->]. destruct (Hin sc').
    apply elem_of_app. right. by left.
  - rewrite exec_refused by done. by apply IH.
Qed.

Lemma elem_of_metaphone_cmds index id nlpObj c :
  c ∈ metaphone_cmds index id nlpObj
  ↔ ∃ w wordKey,
      w ∈ keys nlpObj
      ∧ wordKey ∈ default [] (JS.get (map nlpObj) w)
      ∧ c ∈ code_cmds index id
              (default (Num 0) (JS.get (counts nlpObj) w)) wordKey.
Proof.
  unfold metaphone_cmds. rewrite list_elem_of_bind. split.
  - intros (w & (wk & ? & ?)%list_elem_of_bind & ?). eauto.
  - intros (w & wk & ? & ? & ?). exists w. split; [|done].
    apply list_elem_of_bind. eauto.
Qed.

Lemma plain_not_proto w : plain w → w ≠ "__proto__".
Proof. by intros H ->. Qed.

Section Scores.
Variable nStem : string → string.
Variable nMetaphone : string → list string.

(** The commands of a phonetic [set], by the word and the code they come
    from: two additions carrying the count of a plain word, or two refused
    additions for a word that names an inherited member. *)
Lemma metaphone_cmds_shape index id text pid c :
  let stems := getStemWords nStem (getWords text) in
  c ∈ metaphone_cmds index id (processLanguage nStem nMetaphone text pid)
  ↔ ∃ w code,
      w ∈ stems ∧ w ≠ "__proto__" ∧ code ∈ nMetaphone w
      ∧ c ∈ code_cmds index id (tally w (occurrences w stems)) code.
Proof.
  intros stems. rewrite elem_of_metaphone_cmds. split.
  - intros (w & wk & Hw & Hwk & Hc).
    destruct (processLanguage_at nStem nMetaphone text pid w Hw)
      as (Hmap & Hcount & _).
    rewrite Hmap in Hwk. rewrite Hcount in Hc.
    apply keys_processLanguage in Hw as [Hw Hp]. exists w, wk. eauto.
  - intros (w & code & Hw & Hp & Hcode & Hc).
    assert (w ∈ keys (processLanguage nStem nMetaphone text pid)) as Hk
      by by apply keys_processLanguage.
    destruct (processLanguage_at nStem nMetaphone text pid w Hk)
      as (Hmap & Hcount & _).
    exists w, code. by rewrite Hmap, Hcount.
Qed.

Lemma metaphone_cmds_zadd index id text pid :
  Forall is_zadd
    (metaphone_cmds index id (processLanguage nStem nMetaphone text pid)).
Proof.
  apply Forall_forall. intros c (w & wk & _ & _ & _ & Hc)%metaphone_cmds_shape.
  destruct (tally_cases w (occurrences w (getStemWords nStem (getWords text))))
    as [[_ Ht]|[_ (s & Ht & Hs)]]; rewrite Ht in Hc;
    unfold code_cmds, zadd in Hc; set_solver.
Qed.

(** The forward writes of a [set] call that carry a number: one per code
    of a stemmed word that names no inherited member, carrying the number
    of occurrences of the word. *)
Lemma forward_write text id index pid code sc :
  let stems := getStemWords nStem (getWords text) in
  ZADD (word_key index code) sc (to_string id)
    ∈ metaphone_cmds index id (processLanguage nStem nMetaphone text pid)
  ↔ ∃ w, w ∈ stems ∧ plain w ∧ code ∈ nMetaphone w
         ∧ sc = occurrences w stems.
Proof.
  intros stems. rewrite metaphone_cmds_shape. fold stems. split.
  - intros (w & wk & Hw & Hp & Hwk & Hc).
    destruct (tally_cases w (occurrences w stems))
      as [[Hpl Ht]|[_ (s & Ht & Hs)]]; rewrite Ht in Hc;
      unfold code_cmds, zadd in Hc;
      apply elem_of_cons in Hc as [Hc|Hc%list_elem_of_singleton];
      try discriminate Hc.
    + injection Hc. intros. key_clash. exists w. eauto.
    + exfalso. injection Hc. intros. key_clash.
  - intros (w & Hw & Hpl & Hcode & ->). exists w, code.
    split; [done|]. split; [by apply plain_not_proto|]. split; [done|].
    unfold tally. rewrite Hpl. by left.
Qed.

(** C1, as amended. Phonetic strategy: [set(id, text)] writes the score
    of [id] in a code's forward posting set with ZADD, which replaces the
    score stored by earlier calls: when a stemmed word of the text that
    names no member of [Object.prototype] yields the code, the score
    stored after the call is the number of occurrences in this text of
    such a stemmed word yielding the code, whatever the store held
    before; nothing is added to the earlier score. *)
Theorem set_replaces_score name id text code w cl :
  let this := new_RedisAdapter name (Some phonetic) in
  let stems := getStemWords nStem (getWords text) in
  w ∈ stems → plain w → code ∈ nMetaphone w →
  ∃ w', w' ∈ stems ∧ plain w' ∧ code ∈ nMetaphone w'
        ∧ zscore (db (set nStem nMetaphone this id text cl).2)
            (word_key name code) (to_string id)
          = Some (occurrences w' stems).
Proof.
  intros this stems Hw Hplain Hcode.
  change (set nStem nMetaphone this id text cl)
    with (setMetaphone nStem nMetaphone this id text cl).
  rewrite db_setMetaphone. cbn [index this new_RedisAdapter].
  destruct (zscore_last_write
              (metaphone_cmds name id
                 (processLanguage nStem nMetaphone text id))
              (db cl) (word_key name code) (to_string id))
    as (sc & Hin & Hsc).
  - apply metaphone_cmds_zadd.
  - exists (occurrences w stems). apply forward_write. eauto.
  - apply forward_write in Hin as (w' & ? & ? & ? & ->). eauto.
Qed.
End Scores.

(** ** The word tokenizer *)

Lemma all_chars_append p s t :
  all_chars p (s +:+ t) = all_chars p s && all_chars p t.
Proof.
  induction s as [|c s IH]; [done|].
  rewrite append_cons. simpl. rewrite IH. by destruct (p c).
Qed.

Lemma tokenized_separator_cons c s ws :
  word_char c = false → tokenized s ws → tokenized (String c s) ws.
Proof.
  intros Hc. destruct 1 as [sep Hsep|sep w rest ws Hsep Hw Hrest Hws].
  - constructor. unfold separator in *. cbn. by rewrite Hc.
  - change (String c (sep +:+ w +:+ rest))
      with (String c sep +:+ w +:+ rest).
    constructor; [|done..]. unfold separator in *. cbn. by rewrite Hc.
Qed.

Lemma tokenized_flush cur rest ws :
  all_chars word_char cur → run_end rest → tokenized rest ws →
  tokenized (cur +:+ rest) (flush cur ++ ws).
Proof.
  intros Hcur Hrest Hws. destruct cur as [|c cur]; [done|].
  apply (tokenized_run "" (String c cur) rest ws); done.
Qed.

Lemma match_words_tokenized cur s :
  all_chars word_char cur → tokenized (cur +:+ s) (match_words cur s).
Proof.
  revert cur. induction s as [|c s IH]; intros cur Hcur; simpl.
  - rewrite <-(app_nil_r (flush cur)).
    apply tokenized_flush; [done..|]. by constructor.
  - destruct (word_char c) eqn:Hc.
    + replace (cur +:+ String c s) with ((cur +:+ String c "") +:+ s)
        by by rewrite append_assoc.
      apply IH. rewrite all_chars_append. simpl. rewrite Hc.
      by destruct (all_chars word_char cur).
    + apply tokenized_flush; [done..|].
      apply tokenized_separator_cons; [done|]. by apply (IH "").
Qed.

Lemma match_words_separator sep t :
  separator sep → match_words "" (sep +:+ t) = match_words "" t.
Proof.
  unfold separator. induction sep as [|c sep IH]; [done|].
  rewrite append_cons. simpl. destruct (word_char c); [done|]. apply IH.
Qed.

Lemma match_words_word cur w rest :
  all_chars word_char w →
  match_words cur (w +:+ rest) = match_words (cur +:+ w) rest.
Proof.
  revert cur. induction w as [|c w IH]; intros cur Hw.
  - by rewrite append_nil_r.
  - rewrite append_cons. simpl in *. destruct (word_char c); [|done].
    rewrite IH by done. by rewrite append_assoc.
Qed.

Lemma match_words_run_end cur rest :
  cur ≠ "" → run_end rest →
  match_words cur rest = cur :: match_words "" rest.
Proof.
  intros Hcur Hrest. destruct rest as [|c rest]; simpl in *.
  - by destruct cur.
  - rewrite Hrest. by destruct cur.
Qed.

(** The maximal runs of a text are unique: [tokenized] determines the
    matches. *)
Lemma tokenized_unique s ws : tokenized s ws → match_words "" s = ws.
Proof.
  induction 1 as [sep Hsep|sep w rest ws Hsep [Hw1 Hw2] Hrest _ IH].
  - rewrite <-(append_nil_r sep). by rewrite match_words_separator.
  - rewrite match_words_separator, match_words_word by done.
    change ("" +:+ w) with w. rewrite match_words_run_end by done.
    by rewrite IH.
Qed.

(** C9, as amended. For every input string [getWords] returns the maximal
    runs of word characters (ASCII letters, digits and the underscore) in
    order of occurrence, the other characters being discarded; when the
    string has no such run, as the empty string, the result is [null] and
    not an empty sequence. *)
Theorem getWords_maximal_runs str :
  if all_chars (λ c, negb (word_char c)) str
  then getWords str = None
  else ∃ ws, getWords str = Some ws ∧ ws ≠ [] ∧ tokenized str ws.
Proof.
  pose proof (match_words_tokenized "" str I) as H.
  change ("" +:+ str) with str in H. unfold getWords.
  destruct (all_chars _ str) eqn:Hsep.
  - rewrite (tokenized_unique str []); [done|].
    constructor. unfold separator. by rewrite Hsep.
  - destruct (match_words "" str) as [|w ws]; [|by eauto].
    inversion H as [sep Hs|]; subst. unfold separator in Hs.
    rewrite Hsep in Hs. by destruct Hs.
Qed.

(** C9 fails as stated: the empty string yields [null], and the
    underscore counts as a word character. *)
Lemma getWords_not_alphanumeric :
  getWords "" = None ∧ getWords "" ≠ Some []
  ∧ getWords "a_b c" = Some ["a_b"; "c"]
  ∧ getWords "a_b c" ≠ Some ["a"; "b"; "c"].
Proof. by vm_compute. Qed.

(** ** Typeahead search *)

Section Typeahead.
Variable toLocaleLowerCase : string → string.
Variable localeCompare : string → string → Z.

Local Abbreviation sort := (sort toLocaleLowerCase localeCompare).

Lemma length_insert_word x l :
  length (insert_word toLocaleLowerCase localeCompare x l) = S (length l).
Proof.
  induction l as [|y l IH]; simpl; [done|].
  case_match; simpl; by rewrite ?IH.
Qed.

Lemma length_sort ws : length (sort ws) = length ws.
Proof.
  unfold Analyzer.sort.
  cut (∀ acc, length (foldl (λ acc x, insert_word toLocaleLowerCase
                                        localeCompare x acc) acc ws)
              = (length acc + length ws)%nat).
  { intros H. by rewrite H. }
  induction ws as [|x ws IH]; intros acc; simpl; [lia|].
  rewrite IH, length_insert_word. lia.
Qed.

Lemma getWords_nonempty text : getWords text ≠ Some [].
Proof. unfold getWords. by destruct (match_words "" text). Qed.

(** C10. In the typeahead search the branch that reads a token's posting
    set directly is never taken: the word extractor returns [null], and
    the search throws before sending anything, or a non-empty array, and
    the search sends the store command that writes the combination
    cache key and then reads that key. *)
Theorem typeahead_direct_read_unreachable this text options cl :
  (getWords text = None ∨ ∃ w ws, getWords text = Some (w :: ws))
  ∧ match typeaheadSearch toLocaleLowerCase localeCompare
            this text options cl with
    | (Throw e, cl') => getWords text = None ∧ e = TypeError ∧ cl' = cl
    | (Return l, cl') =>
        ∃ words,
          let keys := sort words in
          let sep := match search_type options with
                     | zinterstore => "&"
                     | zunionstore => "|"
                     end in
          let tkey := cache_key (index this) sep keys in
          getWords text = Some words ∧ keys ≠ []
          ∧ sent cl'
            = sent cl
              ++ [Multi [ZSTORE (search_type options) tkey
                           (token_key (index this) <$> keys)];
                  Single (ZRANGE tkey (search_start options)
                            (search_stop options) false)]
    end.
Proof.
  split.
  { pose proof (getWords_nonempty text).
    destruct (getWords text) as [[|w ws]|];
      [done|right; eauto|by left]. }
  unfold typeaheadSearch.
  pose proof (getWords_nonempty text) as Hne.
  destruct (getWords text) as [words|]; [|done].
  assert (sort words ≠ []) as Hkeys.
  { intros H%(f_equal length). rewrite length_sort in H.
    destruct words; [done|discriminate H]. }
  rewrite bool_decide_true
    by (destruct (sort words); [done|simpl; lia]).
  unfold mbind, async_bind.
  destruct (search_type options); rewrite multi_eq, send_eq;
    cbn [db sent fst snd]; exists words; cbn zeta;
    by rewrite <-app_assoc.
Qed.
End Typeahead.

(** C3 fails on the code: in prefix mode the single-token query "Bar"
    goes through ZINTERSTORE into the cache key "UserSearch:cache:Bar",
    which the store did not hold before the search and holds after it. *)
Theorem single_token_query_writes_cache :
  let cl := run Sample.stem Sample.metaphone Sample.lower Sample.collate
              Sample.typeahead
              [OpSet (IdNum 1) "Foo"; OpSet (IdNum 2) "Foo Bar";
               OpSet (IdNum 3) "Foo Bar Baz"] in
  let r := search Sample.stem Sample.metaphone Sample.lower Sample.collate
             Sample.typeahead "Bar" None cl in
  getWords "Bar" = Some ["Bar"]
  ∧ r.1 = Return ["2"; "3"]
  ∧ sent r.2
    = sent cl
      ++ [Multi [ZSTORE zinterstore "UserSearch:cache:Bar"
                   ["UserSearch:token:Bar"]];
          Single (ZRANGE "UserSearch:cache:Bar" 0 (-1) false)]
  ∧ db cl !! "UserSearch:cache:Bar" = None
  ∧ db r.2 !! "UserSearch:cache:Bar" = Some {["2" := 0; "3" := 0]}
  ∧ db r.2 ≠ db cl.
Proof.
  intros cl r.
  assert (db cl !! "UserSearch:cache:Bar" = None) as H1
    by (vm_compute; reflexivity).
  assert (db r.2 !! "UserSearch:cache:Bar" = Some {["2" := 0; "3" := 0]})
    as H2 by (vm_compute; reflexivity).
  split; [vm_compute; reflexivity|].
  split; [vm_compute; reflexivity|].
  split; [vm_compute; reflexivity|].
  split; [exact H1|]. split; [exact H2|].
  intros Heq. rewrite Heq in H2. rewrite H1 in H2. discriminate H2.
Qed.

(** A query without words: the phonetic search returns the empty list and
    the typeahead search throws, both before any request. *)
Lemma empty_query_phonetic nStem nMetaphone this text options cl :
  getWords text = None →
  metaphoneSearch nStem nMetaphone this text options cl = (Return [], cl).
Proof.
  intros H. rewrite metaphoneSearch_eq.
  unfold query_keys, processLanguage. rewrite H. simpl.
  by destruct (negb _).
Qed.

Lemma empty_query_typeahead lower compare this text options cl :
  getWords text = None →
  typeaheadSearch lower compare this text options cl = (Throw TypeError, cl).
Proof. intros H. unfold typeaheadSearch. by rewrite H. Qed.

(** C4 fails on the code for the prefix strategy: a query without word
    characters makes the typeahead search throw a TypeError, while the
    phonetic search returns the empty list; neither sends a request. *)
Theorem empty_query_throws_in_prefix_mode :
  search Sample.stem Sample.metaphone Sample.lower Sample.collate
    Sample.typeahead "" None fresh = (Throw TypeError, fresh)
  ∧ search Sample.stem Sample.metaphone Sample.lower Sample.collate
      Sample.typeahead " ?!" None fresh = (Throw TypeError, fresh)
  ∧ search Sample.stem Sample.metaphone Sample.lower Sample.collate
      Sample.adapter "" None fresh = (Return [], fresh)
  ∧ search Sample.stem Sample.metaphone Sample.lower Sample.collate
      Sample.adapter " ?!" None fresh = (Return [], fresh).
Proof. vm_compute. repeat split; reflexivity. Qed.

(** ** Combinator resolution and the mode guard *)

Section Combinator.
Variable nStem : string → string.
Variable nMetaphone : string → list string.


(** C8. In the phonetic-only revision a search on an adapter whose
    configured mode is not the phonetic one fails with the
    unsupported-operation error before any request is sent: the
    connection is left as it was. *)
Theorem unsupported_mode_fails_first this text options cl :
  Legacy.mode this ≠ Some Legacy.MODES_phonetic →
  Legacy.search nStem nMetaphone this text options cl
  = (Throw Legacy.unsupported, cl).
Proof.
  intros Hmode. unfold Legacy.search.
  destruct (Legacy.mode this) as [n|]; simpl; [|done].
  destruct (Z.eqb_spec n Legacy.MODES_phonetic) as [->|?]; [done|].
  done.
Qed.
End Combinator.

Lemma unsupported_mode_fails_first_witness :
  Legacy.search Sample.stem Sample.metaphone
    {| Legacy.index := "UserSearch"; Legacy.mode := Some 1 |}
    "foo bar" None fresh
  = (Throw Legacy.unsupported, fresh).
Proof.
  apply (unsupported_mode_fails_first Sample.stem Sample.metaphone
           {| Legacy.index := "UserSearch"; Legacy.mode := Some 1 |}).
  simpl. discriminate.
Defined.

(** ** The claims on concrete stores *)

(** C1 fails as stated: after [set(1, "foo")] (frequency 1) and
    [set(1, "foo foo")] (frequency 2) the score of document 1 under the
    code "F" is 2, not 3. *)
Lemma second_set_does_not_add :
  let cl1 := (set Sample.stem Sample.metaphone Sample.adapter
                (IdNum 1) "foo" fresh).2 in
  let cl2 := (set Sample.stem Sample.metaphone Sample.adapter
                (IdNum 1) "foo foo" cl1).2 in
  occurrences "foo" (getStemWords Sample.stem (getWords "foo")) = 1
  ∧ occurrences "foo" (getStemWords Sample.stem (getWords "foo foo")) = 2
  ∧ zscore (db cl1) (word_key "UserSearch" "F") "1" = Some 1
  ∧ zscore (db cl2) (word_key "UserSearch" "F") "1" = Some 2
  ∧ zscore (db cl2) (word_key "UserSearch" "F") "1" ≠ Some (1 + 2).
Proof. vm_compute. repeat split; [reflexivity..|discriminate]. Qed.

Lemma set_replaces_score_witness :
  ∃ w', w' ∈ getStemWords Sample.stem (getWords "foo foo")
        ∧ plain w'
        ∧ "F" ∈ Sample.metaphone w'
        ∧ zscore
            (db (set Sample.stem Sample.metaphone
                   (new_RedisAdapter "UserSearch" (Some phonetic))
                   (IdNum 1) "foo foo" fresh).2)
            (word_key "UserSearch" "F") (to_string (IdNum 1))
          = Some (occurrences w'
                    (getStemWords Sample.stem (getWords "foo foo"))).
Proof.
  apply (set_replaces_score Sample.stem Sample.metaphone "UserSearch"
           (IdNum 1) "foo foo" "F" "foo" fresh).
  - vm_compute. left.
  - vm_compute. reflexivity.
  - vm_compute. left.
Defined.

(** C2 fails as stated: the second identical search returns the page
    again, not an empty one. *)
Lemma repeated_search_not_empty :
  let cl := run Sample.stem Sample.metaphone Sample.lower Sample.collate
              Sample.adapter
              [OpSet (IdNum 1) "hello"; OpSet (IdNum 3) "foo bar"] in
  let r1 := search Sample.stem Sample.metaphone Sample.lower Sample.collate
              Sample.adapter "foo bar" (Sample.whole_range type_and) cl in
  let r2 := search Sample.stem Sample.metaphone Sample.lower Sample.collate
              Sample.adapter "foo bar" (Sample.whole_range type_and) r1.2 in
  r1.1 = Return ["3"] ∧ r2.1 = Return ["3"] ∧ r2.1 ≠ Return [].
Proof. vm_compute. repeat split; [reflexivity..|discriminate]. Qed.

(** The window is read from the top of the ranking and removed from its
    bottom: with documents 3 ("foo bar") and 4 ("foo foo"), the query "foo"
    over the window [0, 0] returns document 4 and leaves document 4 in the
    ephemeral key. *)
Example window_read_and_removed :
  let cl := run Sample.stem Sample.metaphone Sample.lower Sample.collate
              Sample.adapter
              [OpSet (IdNum 3) "foo bar"; OpSet (IdNum 4) "foo foo"] in
  let first := Some {| type := Some type_or;
                       between := Some {| from := Some 0; to := Some 0 |} |} in
  let r := search Sample.stem Sample.metaphone Sample.lower Sample.collate
             Sample.adapter "foo" first cl in
  r.1 = Return ["4"]
  ∧ db r.2 !! tmp_key "UserSearch" = Some {["4" := 2]}.
Proof. vm_compute. split; reflexivity. Qed.

(** The test of the repository, on the documents whose codes are
    tabulated. *)
Example test_basic :
  let cl := run Sample.stem Sample.metaphone Sample.lower Sample.collate
              Sample.adapter
              [OpSet (IdNum 1) "hello"; OpSet (IdNum 3) "foo bar"] in
  (search Sample.stem Sample.metaphone Sample.lower Sample.collate
     Sample.adapter "foo bar" (Sample.whole_range type_and) cl).1
  = Return ["3"]
  ∧ (search Sample.stem Sample.metaphone Sample.lower Sample.collate
       Sample.adapter "foo bar" (Sample.whole_range type_and)
       (delete Sample.adapter (IdNum 3) cl).2).1
    = Return [].
Proof. vm_compute. split; reflexivity. Qed.

Lemma deleted_id_not_found_witness :
  db fresh !! object_key "UserSearch" (to_string (IdNum 7)) = None
  ∧ db (delete (new_RedisAdapter "UserSearch" (Some phonetic))
          (IdNum 7) fresh).2
    = db fresh.
Proof.
  assert (db fresh !! object_key "UserSearch" (to_string (IdNum 7)) = None)
    as H by reflexivity.
  split; [exact H|].
  exact (proj2 (deleted_id_not_found Sample.stem Sample.metaphone
                  Sample.lower Sample.collate "UserSearch" [] (IdNum 7)
                  "foo" None) fresh H).
Defined.


(** * Further properties of the adapter *)

(** ** Keys *)

Lemma token_key_inj index : Inj (=) (=) (token_key index).
Proof.
  intros c1 c2 H. unfold token_key in H.
  apply (inj (String.app index)) in H. by injection H.
Qed.

(** X1. For one index name the five families of keys (word posting sets,
    reverse indexes, token posting sets, cache keys and the ephemeral key)
    never share a name. *)
Theorem key_families_disjoint index a b sep keys :
  word_key index a ≠ object_key index b
  ∧ word_key index a ≠ token_key index b
  ∧ word_key index a ≠ cache_key index sep keys
  ∧ word_key index a ≠ tmp_key index
  ∧ object_key index a ≠ token_key index b
  ∧ object_key index a ≠ cache_key index sep keys
  ∧ object_key index a ≠ tmp_key index
  ∧ token_key index a ≠ cache_key index sep keys
  ∧ token_key index a ≠ tmp_key index
  ∧ cache_key index sep keys ≠ tmp_key index.
Proof.
  unfold word_key, object_key, token_key, cache_key, tmp_key.
  repeat split; intros H; apply (inj (String.app index)) in H;
    discriminate H.
Qed.

(** ** Commands leave the other keys alone *)

Ltac key_family H :=
  exfalso;
  unfold word_key, object_key, token_key, cache_key, tmp_key in H;
  apply (inj (String.app _)) in H; discriminate H.

Lemma lookup_put_ne k z d k' : k ≠ k' → put k z d !! k' = d !! k'.
Proof.
  intros Hne. unfold put. case_decide.
  - by rewrite lookup_delete_ne.
  - by rewrite lookup_insert_ne.
Qed.

Lemma lookup_exec_other c d k :
  target c ≠ Some k → (exec c d).2 !! k = d !! k.
Proof.
  destruct c; simpl; intros Hne; try done;
    try (destruct (score_of_text _); simpl; [|done]);
    first [ apply lookup_put_ne | apply lookup_insert_ne
          | apply lookup_delete_ne ]; congruence.
Qed.

Lemma lookup_run_cmds_other cs d k :
  Forall (λ c, target c ≠ Some k) cs → run_cmds cs d !! k = d !! k.
Proof.
  revert d. induction cs as [|c cs IH]; intros d Hcs; [done|].
  apply Forall_cons in Hcs as [Hc Hcs].
  by rewrite run_cmds_cons, IH, lookup_exec_other.
Qed.

Lemma exec_normal c d : normal d → normal (exec c d).2.
Proof.
  assert (∀ k z, normal d → normal (put k z d)) as Hput.
  { intros k z Hd k' z'. unfold put. case_decide as Hz.
    - intros [_ ?]%lookup_delete_Some. by eapply Hd.
    - intros [[_ <-]|[_ ?]]%lookup_insert_Some; [done|]. by eapply Hd. }
  intros Hd. destruct c; simpl; try done; try by apply Hput.
  - intros k' z' [[_ <-]|[_ ?]]%lookup_insert_Some; [|by eapply Hd].
    apply insert_non_empty.
  - destruct (score_of_text _); simpl; [|done].
    intros k' z' [[_ <-]|[_ ?]]%lookup_insert_Some; [|by eapply Hd].
    apply insert_non_empty.
  - intros k' z' [_ ?]%lookup_delete_Some. by eapply Hd.
Qed.

Lemma run_cmds_normal cs d : normal d → normal (run_cmds cs d).
Proof.
  revert d. induction cs as [|c cs IH]; intros d Hd; [done|].
  rewrite run_cmds_cons. by apply IH, exec_normal.
Qed.

(** Normal keyspaces with the same scores are equal. *)
Lemma normal_ext d1 d2 :
  normal d1 → normal d2 →
  (∀ k m, zscore d1 k m = zscore d2 k m) → d1 = d2.
Proof.
  intros H1 H2 Heq. apply map_eq. intros k.
  assert (∀ da db z, normal da → da !! k = Some z → db !! k = None →
                     (∀ m, zscore da k m = zscore db k m) → False) as Hno.
  { intros da db z Hda Hz Hnone Hm. apply (Hda k z Hz).
    apply map_eq. intros m. specialize (Hm m). unfold zscore in Hm.
    rewrite Hz, Hnone in Hm. simpl in Hm. by rewrite lookup_empty. }
  destruct (d1 !! k) as [z1|] eqn:E1, (d2 !! k) as [z2|] eqn:E2; [|..|done].
  - f_equal. apply map_eq. intros m. specialize (Heq k m).
    unfold zscore in Heq. by rewrite E1, E2 in Heq.
  - destruct (Hno d1 d2 z1 H1 E1 E2). intros m. apply Heq.
  - destruct (Hno d2 d1 z2 H2 E2 E1). intros m. symmetry. apply Heq.
Qed.

(** ** Batches of ZADD *)

Lemma zscore_zadds cs d k m :
  Forall is_zadd cs →
  zscore (run_cmds cs d) k m = zscore d k m
  ∨ ∃ sc, ZADD k sc m ∈ cs ∧ zscore (run_cmds cs d) k m = Some sc.
Proof.
  induction cs as [|c cs IH] using rev_ind; intros Hz; [by left|].
  apply Forall_app in Hz as [Hz Hc]. apply Forall_inv in Hc.
  rewrite run_cmds_app, run_cmds_cons, run_cmds_nil.
  assert (zscore (run_cmds cs d) k m = zscore d k m
          ∨ ∃ sc, ZADD k sc m ∈ cs ++ [c]
                  ∧ zscore (run_cmds cs d) k m = Some sc) as Hcs.
  { destruct (IH Hz) as [?|(sc & ? & ?)]; [by left|].
    right. exists sc. split; [|done]. apply elem_of_app. by left. }
  destruct c as [k' sc' m'|k' s' m'| | | | | |]; try (exfalso; exact Hc);
    [|by rewrite exec_refused].
  rewrite zscore_ZADD. case_decide as Heq; [|done].
  destruct Heq as [-> ->]. right. exists sc'. split; [|done].
  apply elem_of_app. right. by left.
Qed.

(** A batch of ZADDs lays what it writes over what the key held. *)
Lemma lookup_run_zadds cs d k :
  Forall is_zadd cs →
  run_cmds cs d !! k
  = match run_cmds cs ∅ !! k with
    | Some w => Some (w ∪ zset_at d k)
    | None => d !! k
    end.
Proof.
  induction cs as [|c cs IH] using rev_ind; intros Hz.
  { by rewrite !run_cmds_nil, lookup_empty. }
  apply Forall_app in Hz as [Hz Hc]. apply Forall_inv in Hc.
  rewrite !run_cmds_app, !run_cmds_cons, !run_cmds_nil.
  destruct c as [k' sc' m'|k' s' m'| | | | | |]; try (exfalso; exact Hc);
    [|rewrite !exec_refused by done; by apply IH].
  cbn [exec snd]. rewrite !lookup_insert.
  destruct (decide (k' = k)) as [->|Hne]; [|by apply IH].
  assert (zset_at (run_cmds cs d) k
          = zset_at (run_cmds cs ∅) k ∪ zset_at d k) as ->.
  { unfold zset_at at 1 2. rewrite (IH Hz).
    destruct (run_cmds cs ∅ !! k); simpl; [done|].
    by rewrite (left_id_L ∅ (∪)). }
  by rewrite insert_union_l.
Qed.

Lemma run_zadds_idemp cs d :
  Forall is_zadd cs → run_cmds cs (run_cmds cs d) = run_cmds cs d.
Proof.
  intros Hz. apply map_eq. intros k.
  rewrite (lookup_run_zadds cs (run_cmds cs d)) by done.
  destruct (run_cmds cs ∅ !! k) as [w|] eqn:Hw; [|done].
  rewrite (lookup_run_zadds cs d) by done. rewrite Hw. f_equal.
  unfold zset_at at 1. rewrite (lookup_run_zadds cs d), Hw by done. simpl.
  by rewrite (assoc_L (∪)), (idemp_L (∪)).
Qed.

Lemma typeahead_cmds_zadd index id tokenObj :
  Forall is_zadd (typeahead_cmds index id tokenObj).
Proof. apply Forall_fmap, Forall_true. by intros key. Qed.

Lemma setTypeAhead_eq this id text cl :
  setTypeAhead this id text cl
  = match processText id text with
    | Throw e => (Throw e, cl)
    | Return processed =>
        let cs := typeahead_cmds (index this) id processed in
        (Return true, Client (run_cmds cs (db cl)) (sent cl ++ [Multi cs]))
    end.
Proof.
  unfold setTypeAhead. destruct (processText id text); [|done].
  unfold writeToTypeAheadIndex, mbind, async_bind.
  fold (typeahead_cmds (index this) id a). by rewrite multi_eq.
Qed.

Lemma setMetaphone_eq nStem nMetaphone this id text cl :
  setMetaphone nStem nMetaphone this id text cl
  = let cs := metaphone_cmds (index this) id
                (processLanguage nStem nMetaphone text id) in
    (Return true, Client (run_cmds cs (db cl)) (sent cl ++ [Multi cs])).
Proof.
  unfold setMetaphone, writeToMetaphoneIndex, mbind, async_bind.
  by rewrite multi_eq.
Qed.

(** What [set] does to the keyspace, in either mode: nothing, or a batch
    of ZADDs. *)
Lemma set_batch nStem nMetaphone this id text cl :
  ∃ cs, Forall is_zadd cs
        ∧ db (set nStem nMetaphone this id text cl).2 = run_cmds cs (db cl)
        ∧ ∀ cl', (set nStem nMetaphone this id text cl').1
                 = (set nStem nMetaphone this id text cl).1
                 ∧ db (set nStem nMetaphone this id text cl').2
                   = run_cmds cs (db cl').
Proof.
  unfold set. destruct (mode this).
  - eexists. split; [apply metaphone_cmds_zadd|].
    split; [by rewrite setMetaphone_eq|]. intros cl'.
    by rewrite !setMetaphone_eq.
  - destruct (processText id text) as [processed|e] eqn:Hp.
    + exists (typeahead_cmds (index this) id processed).
      split; [apply typeahead_cmds_zadd|].
      split; [by rewrite setTypeAhead_eq, Hp|]. intros cl'.
      by rewrite !setTypeAhead_eq, Hp.
    + exists []. split; [done|].
      split; [by rewrite setTypeAhead_eq, Hp|]. intros cl'.
      by rewrite !setTypeAhead_eq, Hp.
Qed.

Section SetProperties.
Variable nStem : string → string.
Variable nMetaphone : string → list string.

(** X2. In either mode, indexing the same document text twice in a row
    leaves the keyspace as the first call left it and settles the same
    way. *)
Theorem set_idempotent this id text cl :
  let r1 := set nStem nMetaphone this id text cl in
  let r2 := set nStem nMetaphone this id text r1.2 in
  r2.1 = r1.1 ∧ db r2.2 = db r1.2.
Proof.
  intros r1 r2. subst r1 r2.
  destruct (set_batch nStem nMetaphone this id text cl)
    as (cs & Hz & Hdb & Hany).
  destruct (Hany (set nStem nMetaphone this id text cl).2) as [H1 H2].
  split; [done|]. rewrite H2, Hdb. by apply run_zadds_idemp.
Qed.

(** X3. In either mode [set] never removes a member from a sorted set:
    what was posted under a key before the call is posted after it. *)
Theorem set_never_removes this id text cl k m :
  posted (db cl) k m →
  posted (db (set nStem nMetaphone this id text cl).2) k m.
Proof.
  unfold posted.
  destruct (set_batch nStem nMetaphone this id text cl)
    as (cs & Hz & -> & _).
  intros H. destruct (zscore_zadds cs (db cl) k m Hz) as [->|(sc & _ & ->)];
    [done|by eexists].
Qed.
End SetProperties.

Lemma set_never_removes_witness :
  posted
    (db (set Sample.stem Sample.metaphone Sample.adapter (IdNum 1) "bar"
           (set Sample.stem Sample.metaphone Sample.adapter (IdNum 1) "foo"
              fresh).2).2)
    (word_key "UserSearch" "F") "1".
Proof.
  apply (set_never_removes Sample.stem Sample.metaphone).
  vm_compute. by eexists.
Defined.

(** ** What [delete] and [search] leave alone *)

Lemma remove_cmds_targets index id cs k :
  k ≠ object_key index id → k ∉ word_key index <$> cs →
  Forall (λ c, target c ≠ Some k) (remove_cmds index id cs).
Proof.
  intros Ho Hw. apply Forall_cons. split; [simpl; congruence|].
  apply Forall_fmap, Forall_forall. intros c Hc. simpl. intros [= <-].
  apply Hw. by apply list_elem_of_fmap_2.
Qed.

Lemma token_key_not_in_words index tok (cs : list string) :
  token_key index tok ∉ word_key index <$> cs.
Proof.
  intros (c & H & _)%list_elem_of_fmap. key_family H.
Qed.

Lemma cache_key_not_in_words index sep keys (cs : list string) :
  cache_key index sep keys ∉ word_key index <$> cs.
Proof.
  intros (c & H & _)%list_elem_of_fmap. key_family H.
Qed.

(** X4. In any mode [delete] leaves every token posting set and every
    cache key of the prefix index exactly as it was: it cannot retract
    what the prefix strategy indexed. *)
Theorem delete_keeps_prefix_index this id cl tok sep keys :
  db (delete this id cl).2 !! token_key (index this) tok
  = db cl !! token_key (index this) tok
  ∧ db (delete this id cl).2 !! cache_key (index this) sep keys
    = db cl !! cache_key (index this) sep keys.
Proof.
  rewrite db_delete. split; apply lookup_run_cmds_other, remove_cmds_targets.
  - intros H. key_family H.
  - apply token_key_not_in_words.
  - intros H. key_family H.
  - apply cache_key_not_in_words.
Qed.

(** X5. [delete(id)] leaves the other documents alone: for every member
    other than [id] the scores in the forward posting sets and the whole
    reverse index are as before. *)
Theorem delete_keeps_other_documents this id cl m code :
  m ≠ to_string id →
  zscore (db (delete this id cl).2) (word_key (index this) code) m
  = zscore (db cl) (word_key (index this) code) m
  ∧ zscore (db (delete this id cl).2) (object_key (index this) m) code
    = zscore (db cl) (object_key (index this) m) code.
Proof.
  intros Hne. rewrite db_delete, !zscore_remove_cmds. split.
  - rewrite decide_False; [done|]. intros [?|[? _]]; [key_clash|done].
  - rewrite decide_False; [done|].
    intros [?|[_ []%not_object_in_words]]. key_clash. done.
Qed.

Lemma delete_keeps_other_documents_witness :
  let cl := run Sample.stem Sample.metaphone Sample.lower Sample.collate
              Sample.adapter
              [OpSet (IdNum 3) "foo bar"; OpSet (IdNum 4) "foo foo"] in
  zscore (db (delete Sample.adapter (IdNum 3) cl).2)
    (word_key (index Sample.adapter) "F") "4"
  = zscore (db cl) (word_key (index Sample.adapter) "F") "4"
  ∧ zscore (db (delete Sample.adapter (IdNum 3) cl).2)
      (object_key (index Sample.adapter) "4") "F"
    = zscore (db cl) (object_key (index Sample.adapter) "4") "F".
Proof.
  intros cl. apply (delete_keeps_other_documents Sample.adapter (IdNum 3)).
  vm_compute. discriminate.
Defined.

Section SearchReadOnly.
Variable nStem : string → string.
Variable nMetaphone : string → list string.
Variable toLocaleLowerCase : string → string.
Variable localeCompare : string → string → Z.

Lemma db_typeaheadSearch this text options cl :
  ∃ sep keys z,
    db (typeaheadSearch toLocaleLowerCase localeCompare
          this text options cl).2
    = db cl
    ∨ db (typeaheadSearch toLocaleLowerCase localeCompare
            this text options cl).2
      = put (cache_key (index this) sep keys) z (db cl).
Proof.
  unfold typeaheadSearch. destruct (getWords text) as [words|].
  2: { exists "", [], ∅. by left. }
  case_bool_decide.
  - destruct (search_type options); unfold mbind, async_bind;
      rewrite multi_eq, send_eq; cbn [db fst snd exec];
      rewrite run_cmds_cons, run_cmds_nil; cbn [exec snd];
      do 3 eexists; by right.
  - unfold mbind, async_bind. rewrite multi_eq, send_eq.
    exists "", [], ∅. by left.
Qed.

Lemma search_lookup_index this text options cl a :
  let d' := db (search nStem nMetaphone toLocaleLowerCase localeCompare
                  this text options cl).2 in
  d' !! word_key (index this) a = db cl !! word_key (index this) a
  ∧ d' !! object_key (index this) a = db cl !! object_key (index this) a
  ∧ d' !! token_key (index this) a = db cl !! token_key (index this) a.
Proof.
  intros d'. subst d'. unfold search. destruct (mode this).
  - rewrite metaphoneSearch_eq.
    destruct (query_keys _ _ _ _) as [[|k keys]|]; [done| |done].
    cbn [snd db].
    destruct (run_search_cmds (tmp_key (index this)) (search_type options)
                (k :: keys) (search_start options) (search_stop options)
                (db cl)) as [z ->].
    repeat split; apply lookup_put_ne; intros H; key_family H.
  - destruct (db_typeaheadSearch this text options cl)
      as (sep & keys & z & [-> | ->]); [done|].
    repeat split; apply lookup_put_ne; intros H; key_family H.
Qed.

End SearchReadOnly.

(** ** Prefix tokens *)

Lemma is_prefix_cons c t d :
  is_prefix (String c t) (String c d) ↔ t = "" ∨ is_prefix t d.
Proof.
  unfold is_prefix. split.
  - intros [_ [rest Hrest]]. rewrite append_cons in Hrest.
    injection Hrest as Hd. destruct t as [|c' t]; [by left|].
    right. split; [done|]. by exists rest.
  - intros [->|[_ [rest ->]]]; (split; [done|]).
    + by exists d.
    + by exists rest.
Qed.

Lemma elem_of_prefixes t d : t ∈ prefixes d ↔ is_prefix t d.
Proof.
  revert t. induction d as [|c d IH]; intros t; simpl.
  - split; [by intros ?%not_elem_of_nil|].
    intros [Ht [rest Hrest]]. destruct t; [done|discriminate Hrest].
  - rewrite elem_of_cons, list_elem_of_fmap. split.
    + intros [->|(t' & -> & Ht')]; apply is_prefix_cons;
        [by left|right; by apply IH].
    + intros Hp. destruct t as [|c' t]; [by destruct Hp|].
      assert (c' = c) as ->.
      { destruct Hp as [_ [rest Hrest]]. rewrite append_cons in Hrest.
        by injection Hrest. }
      apply is_prefix_cons in Hp as [->|Hp]; [by left|].
      right. exists t. split; [done|]. by apply IH.
Qed.

(** X7. The tokens of a word ([getTextTokens]) are exactly its non-empty
    left-anchored substrings, one per length: the list has the length of
    the word and contains the word itself. *)
Theorem prefixes_spec d :
  (∀ t, t ∈ prefixes d ↔ is_prefix t d)
  ∧ length (prefixes d) = String.length d
  ∧ (d = "" ∨ d ∈ prefixes d).
Proof.
  split; [intros t; apply elem_of_prefixes|]. split.
  - induction d as [|c d IH]; simpl; [done|]. by rewrite length_fmap, IH.
  - destruct d as [|c d]; [by left|]. right. apply elem_of_prefixes.
    split; [done|]. exists "". by rewrite append_nil_r.
Qed.

(** ** Listings and combinations, exactly *)

Lemma window_full {A} (l : list A) : window l 0 (-1) = l.
Proof.
  unfold window. destruct l as [|x l]; [done|]. cbv zeta.
  set (len := Z.of_nat (length (x :: l))).
  assert (0 < len) as Hlen by (subst len; simpl; lia).
  repeat match goal with
         | |- context [?a <? ?b] => destruct (Z.ltb_spec a b); try lia
         | |- context [?a <=? ?b] => destruct (Z.leb_spec a b); try lia
         end.
  all: cbn [orb]; change (Z.to_nat 0) with 0%nat; rewrite drop_0.
  all: apply take_ge; subst len; lia.
Qed.

Lemma NoDup_ascending (z : zset) : NoDup (ascending z).
Proof.
  unfold ascending. rewrite merge_sort_Permutation.
  apply NoDup_fst_map_to_list.
Qed.

Lemma NoDup_descending (z : zset) : NoDup (descending z).
Proof.
  unfold descending. rewrite reverse_Permutation. apply NoDup_ascending.
Qed.

Lemma inter_all_lookup (z : zset) zs m :
  is_Some (inter_all (z :: zs) !! m) ↔ ∀ z', z' ∈ z :: zs → is_Some (z' !! m).
Proof.
  simpl. revert z. induction zs as [|a zs IH]; intros z; simpl.
  - split; [by intros ? z' ->%list_elem_of_singleton|].
    intros H. apply H. by left.
  - rewrite IH. split.
    + intros H z' Hz'.
      assert (is_Some (intersection_with (λ a b, Some (a + b)) z a !! m)) as H0.
      { apply H. by left. }
      rewrite lookup_intersection_with in H0.
      destruct (z !! m) eqn:Hz, (a !! m) eqn:Ha; try by destruct H0.
      apply elem_of_cons in Hz' as [->|Hz']; [by rewrite Hz|].
      apply elem_of_cons in Hz' as [->|Hz']; [by rewrite Ha|].
      apply H. by right.
    + intros H z' [->|Hz']%elem_of_cons.
      * rewrite lookup_intersection_with.
        destruct (H z) as [? ->]; [by left|].
        destruct (H a) as [? ->]; [by right; left|]. by eexists.
      * apply H. by do 2 right.
Qed.

Lemma union_all_lookup (zs : list zset) m :
  is_Some (union_all zs !! m) ↔ ∃ z, z ∈ zs ∧ is_Some (z !! m).
Proof.
  split; [apply union_all_dom|]. unfold union_all.
  cut (∀ acc : zset,
         is_Some (acc !! m) ∨ (∃ z, z ∈ zs ∧ is_Some (z !! m)) →
         is_Some (foldl (union_with (λ a b, Some (a + b))) acc zs !! m)).
  { intros H Hz. apply H. by right. }
  induction zs as [|a zs IH]; intros acc; simpl.
  - intros [?|(z & []%not_elem_of_nil & _)]. done.
  - intros H. apply IH.
    destruct H as [Hacc|(z & [->|Hz]%elem_of_cons & Hm)].
    + left. rewrite lookup_union_with. destruct Hacc as [x ->].
      destruct (a !! m); by eexists.
    + left. rewrite lookup_union_with. destruct Hm as [x ->].
      destruct (acc !! m); by eexists.
    + right. eauto.
Qed.

Lemma combine_selected op d (keys : list string) m :
  keys ≠ [] →
  is_Some (combine op (zset_at d <$> keys) !! m) ↔ selected op d keys m.
Proof.
  intros Hne. unfold selected, posted. destruct op; simpl.
  - destruct keys as [|k keys]; [done|]. rewrite fmap_cons, inter_all_lookup.
    rewrite <-fmap_cons. split.
    + intros H k' Hk'. rewrite zscore_zset_at. apply H.
      by apply list_elem_of_fmap_2.
    + intros H z' (k' & -> & Hk')%list_elem_of_fmap.
      rewrite <-zscore_zset_at. by apply H.
  - rewrite union_all_lookup. split.
    + intros (z & (k' & -> & Hk')%list_elem_of_fmap & Hm).
      exists k'. by rewrite zscore_zset_at.
    + intros (k' & Hk' & Hm). exists (zset_at d k').
      split; [by apply list_elem_of_fmap_2|]. by rewrite <-zscore_zset_at.
Qed.

(** ** The prefix strategy: indexing and finding *)

Lemma processText_words id text ws :
  getWords text = Some ws →
  processText id text
  = Return {| tokens := prefixes <$> ws;
              token_keys := concat (prefixes <$> ws) |}.
Proof. intros H. unfold processText, getTextTokens. by rewrite H. Qed.

Lemma elem_of_token_keys (ws : list string) p :
  p ∈ concat (prefixes <$> ws) ↔ ∃ w, w ∈ ws ∧ is_prefix p w.
Proof.
  rewrite list_elem_of_In, in_concat. split.
  - intros (l & (w & -> & Hw)%list_elem_of_In%list_elem_of_fmap
              & Hp%list_elem_of_In).
    exists w. split; [done|]. by apply elem_of_prefixes.
  - intros (w & Hw & Hp). exists (prefixes w).
    split; [by apply list_elem_of_In, list_elem_of_fmap_2|].
    by apply list_elem_of_In, elem_of_prefixes.
Qed.

Lemma length_prefixes d : length (prefixes d) = String.length d.
Proof.
  induction d as [|c d IH]; simpl; [done|]. by rewrite length_fmap, IH.
Qed.

Lemma length_token_keys (ws : list string) :
  length (concat (prefixes <$> ws)) = sum_list (String.length <$> ws).
Proof.
  induction ws as [|w ws IH]; [done|].
  rewrite !fmap_cons. cbn [concat sum_list_with].
  by rewrite length_app, IH, length_prefixes.
Qed.

Lemma setTypeAhead_posts this id text cl ws w p :
  getWords text = Some ws → w ∈ ws → is_prefix p w →
  zscore (db (setTypeAhead this id text cl).2)
    (token_key (index this) p) (to_string id) = Some 0.
Proof.
  intros Hws Hw Hp.
  rewrite setTypeAhead_eq, (processText_words _ _ _ Hws). cbn [snd db].
  destruct (zscore_last_write
              (typeahead_cmds (index this) id
                 {| tokens := prefixes <$> ws;
                    token_keys := concat (prefixes <$> ws) |})
              (db cl) (token_key (index this) p) (to_string id))
    as (sc & Hin & ->).
  - apply typeahead_cmds_zadd.
  - exists 0. unfold typeahead_cmds. cbn [token_keys].
    apply (list_elem_of_fmap_2
             (λ key, ZADD (token_key (index this) key) 0 (to_string id))).
    apply elem_of_token_keys. eauto.
  - unfold typeahead_cmds in Hin.
    apply list_elem_of_fmap in Hin as (key & Heq & _). by injection Heq as _ ->.
Qed.

(** X8. Prefix strategy: [set(id, text)] sends one batch of ZADDs with
    score 0, one per letter of each word of the text, after which [id] is
    posted with score 0 under every non-empty prefix of every word. *)
Theorem typeahead_set_indexes_prefixes this id text cl ws :
  getWords text = Some ws →
  let r := setTypeAhead this id text cl in
  r.1 = Return true
  ∧ (∃ cs, sent r.2 = sent cl ++ [Multi cs]
           ∧ length cs = sum_list (String.length <$> ws)
           ∧ ∀ c, c ∈ cs →
                  ∃ p, c = ZADD (token_key (index this) p) 0 (to_string id))
  ∧ ∀ w p, w ∈ ws → is_prefix p w →
           zscore (db r.2) (token_key (index this) p) (to_string id) = Some 0.
Proof.
  intros Hws r. subst r. split; [|split].
  - by rewrite setTypeAhead_eq, (processText_words _ _ _ Hws).
  - rewrite setTypeAhead_eq, (processText_words _ _ _ Hws). cbn [snd sent].
    eexists. split; [done|]. unfold typeahead_cmds. cbn [token_keys]. split.
    + rewrite length_fmap. apply length_token_keys.
    + intros c (p & -> & _)%list_elem_of_fmap. by exists p.
  - intros w p Hw Hp. by eapply setTypeAhead_posts.
Qed.

Lemma typeahead_set_indexes_prefixes_witness :
  let r := setTypeAhead Sample.typeahead (IdNum 2) "Foo Bar" fresh in
  r.1 = Return true
  ∧ (∃ cs, sent r.2 = sent fresh ++ [Multi cs]
           ∧ length cs = sum_list (String.length <$> ["Foo"; "Bar"])
           ∧ ∀ c, c ∈ cs →
                  ∃ p, c = ZADD (token_key (index Sample.typeahead) p) 0
                             (to_string (IdNum 2)))
  ∧ ∀ w p, w ∈ ["Foo"; "Bar"] → is_prefix p w →
           zscore (db r.2) (token_key (index Sample.typeahead) p)
             (to_string (IdNum 2)) = Some 0.
Proof.
  apply (typeahead_set_indexes_prefixes Sample.typeahead (IdNum 2)
           "Foo Bar" fresh ["Foo"; "Bar"]).
  vm_compute. reflexivity.
Defined.

Section TypeaheadSearch.
Variable toLocaleLowerCase : string → string.
Variable localeCompare : string → string → Z.

Local Abbreviation sort_ := (sort toLocaleLowerCase localeCompare).

Lemma insert_word_Permutation x l :
  insert_word toLocaleLowerCase localeCompare x l ≡ₚ x :: l.
Proof.
  induction l as [|y l IH]; simpl; [done|].
  case_match; [done|]. rewrite IH. apply Permutation_swap.
Qed.

Lemma sort_Permutation ws : sort_ ws ≡ₚ ws.
Proof.
  unfold sort.
  cut (∀ acc, foldl (λ acc x, insert_word toLocaleLowerCase localeCompare
                                x acc) acc ws ≡ₚ acc ++ ws).
  { intros H. by rewrite H. }
  induction ws as [|x ws IH]; intros acc; simpl.
  - by rewrite app_nil_r.
  - rewrite IH, insert_word_Permutation. simpl. apply Permutation_middle.
Qed.

(** The page a typeahead search returns: the window of the ascending
    ranking of the combination of the query tokens' posting sets, as they
    are when the search runs. *)
Lemma typeaheadSearch_result this text options cl ws :
  getWords text = Some ws →
  (typeaheadSearch toLocaleLowerCase localeCompare this text options cl).1
  = Return
      (window
         (ascending
            (combine (search_type options)
               (zset_at (db cl) <$> (token_key (index this) <$> sort_ ws))))
         (search_start options) (search_stop options)).
Proof.
  intros Hws. unfold typeaheadSearch. rewrite Hws.
  rewrite bool_decide_true.
  2: { pose proof (length_sort toLocaleLowerCase localeCompare ws) as Hl.
       pose proof (getWords_nonempty text) as Hne. rewrite Hws in Hne.
       destruct ws; [done|]. rewrite Hl. simpl. lia. }
  unfold mbind, async_bind.
  destruct (search_type options); rewrite multi_eq, send_eq;
    cbn [db fst snd exec]; rewrite run_cmds_cons, run_cmds_nil;
    cbn [exec snd]; by rewrite zset_at_put, decide_True.
Qed.

(** X9. Prefix strategy, whole result window: a search with a query that
    has words returns, without duplicates, exactly the members posted
    under the token of every query word (combinator and/intersect, the
    default) or of some query word (or/union); a query without words
    throws. *)
Theorem typeahead_search_exact this text t cl :
  let options := Some {| type := t; between := None |} in
  let r := typeaheadSearch toLocaleLowerCase localeCompare
             this text options cl in
  match getWords text with
  | None => r.1 = Throw TypeError
  | Some ws =>
      ∃ l, r.1 = Return l ∧ NoDup l
           ∧ ∀ m, m ∈ l
                  ↔ selected (search_type options) (db cl)
                      (token_key (index this) <$> ws) m
  end.
Proof.
  intros options r. subst r.
  destruct (getWords text) as [ws|] eqn:Hws.
  2: { unfold typeaheadSearch. by rewrite Hws. }
  rewrite (typeaheadSearch_result _ _ _ _ _ Hws).
  change (search_start options) with 0. change (search_stop options) with (-1).
  rewrite window_full. eexists. split; [done|].
  split; [apply NoDup_ascending|]. intros m.
  pose proof (getWords_nonempty text) as Hne. rewrite Hws in Hne.
  rewrite elem_of_ascending, combine_selected.
  2: { intros H%(f_equal length). rewrite !length_fmap, length_sort in H.
       by destruct ws. }
  unfold selected. destruct (search_type options).
  - split; intros H k Hk; apply H; revert Hk;
      by rewrite !list_elem_of_fmap; setoid_rewrite sort_Permutation.
  - split; intros (k & Hk & Hm); exists k; (split; [|done]); revert Hk;
      by rewrite !list_elem_of_fmap; setoid_rewrite sort_Permutation.
Qed.
End TypeaheadSearch.

(** ** The phonetic strategy: codes, keys and finding *)

Section Phonetic.
Variable nStem : string → string.
Variable nMetaphone : string → list string.

Lemma push_absent_spec (arr l : list string) :
  let r := foldl (λ arr d, if decide (d ∈ arr) then arr else arr ++ [d])
                 arr l in
  (NoDup arr → NoDup r) ∧ ∀ x, x ∈ r ↔ x ∈ arr ∨ x ∈ l.
Proof.
  revert arr. induction l as [|d l IH]; intros arr; simpl.
  - split; [done|]. intros x. rewrite elem_of_nil. naive_solver.
  - destruct (IH (if decide (d ∈ arr) then arr else arr ++ [d]))
      as [Hnd Hmem]. split.
    + intros Harr. apply Hnd. case_decide; [done|].
      apply NoDup_app. split; [done|]. split; [|apply NoDup_singleton].
      intros x Hx ->%list_elem_of_singleton. done.
    + intros x. rewrite Hmem. case_decide; set_solver.
Qed.

Lemma toMetaphoneArray_members ws :
  NoDup (toMetaphoneArray nMetaphone ws)
  ∧ ∀ c, c ∈ toMetaphoneArray nMetaphone ws
         ↔ ∃ w, w ∈ ws ∧ c ∈ nMetaphone w.
Proof.
  unfold toMetaphoneArray.
  cut (∀ acc : list string,
         let r := foldl (λ arr w,
                    foldl (λ arr d, if decide (d ∈ arr) then arr
                                    else arr ++ [d]) arr (nMetaphone w))
                    acc ws in
         (NoDup acc → NoDup r)
         ∧ ∀ c, c ∈ r ↔ c ∈ acc ∨ ∃ w, w ∈ ws ∧ c ∈ nMetaphone w).
  { intros H. destruct (H []) as [H1 H2]. split; [apply H1, NoDup_nil_2|].
    intros c. rewrite H2, elem_of_nil. naive_solver. }
  induction ws as [|w ws IH]; intros acc; cbv zeta.
  - split; [done|]. intros c. simpl. set_solver.
  - change (foldl ?f acc (w :: ws)) with (foldl f (f acc w) ws).
    destruct (push_absent_spec acc (nMetaphone w)) as [Hnd Hmem].
    destruct (IH (foldl (λ arr d, if decide (d ∈ arr) then arr
                                  else arr ++ [d]) acc (nMetaphone w)))
      as [Hnd' Hmem'].
    split; [by intros ?; apply Hnd', Hnd|].
    intros c. rewrite Hmem', Hmem. set_solver.
Qed.

(** X10. The codes of a query ([toMetaphoneArray]) are the codes of its
    words, each listed once, so no key is passed twice to the store
    command of a search. *)
Theorem toMetaphoneArray_spec ws index :
  NoDup (toMetaphoneArray nMetaphone ws)
  ∧ (∀ c, c ∈ toMetaphoneArray nMetaphone ws
          ↔ ∃ w, w ∈ ws ∧ c ∈ nMetaphone w)
  ∧ NoDup (getMetaphoneKeys nMetaphone (IdStr index) ws).
Proof.
  destruct (toMetaphoneArray_members ws) as [Hnd Hmem].
  split; [done|]. split; [done|].
  unfold getMetaphoneKeys. simpl.
  change (NoDup (word_key index <$> toMetaphoneArray nMetaphone ws)).
  by apply (NoDup_fmap_2 (word_key index)).
Qed.

Lemma query_keys_eq index text :
  query_keys nStem nMetaphone index text
  = if decide (index = "") then None
    else Some (word_key index
                 <$> toMetaphoneArray nMetaphone
                       (getStemWords nStem (getWords text))).
Proof.
  unfold query_keys. simpl. case_decide as H.
  - by rewrite bool_decide_true.
  - by rewrite bool_decide_false.
Qed.

(** X11. An adapter whose index name is the empty string never finds
    anything in phonetic mode: the name is used as the document id when
    the query is analysed, and being falsy it yields no keys, so every
    search returns the empty list without a request. *)
Theorem empty_index_name_finds_nothing mode text options cl :
  metaphoneSearch nStem nMetaphone {| index := ""; mode := mode |}
    text options cl
  = (Return [], cl).
Proof. by rewrite metaphoneSearch_eq, query_keys_eq. Qed.

(** X12. Phonetic strategy, whole result window: a search whose query
    yields keys returns, without duplicates, exactly the members posted
    under every key (combinator and/intersect, the default) or under some
    key (or/union) of the query; a query without keys returns the empty
    list. *)
Theorem phonetic_search_exact this text t cl :
  let options := Some {| type := t; between := None |} in
  let r := metaphoneSearch nStem nMetaphone this text options cl in
  match query_keys nStem nMetaphone (index this) text with
  | None | Some [] => r.1 = Return []
  | Some keys =>
      ∃ l, r.1 = Return l ∧ NoDup l
           ∧ ∀ m, m ∈ l ↔ selected (search_type options) (db cl) keys m
  end.
Proof.
  intros options r. subst r. rewrite metaphoneSearch_eq.
  destruct (query_keys _ _ _ _) as [[|k keys]|]; [done| |done].
  cbn [fst].
  change (search_start options) with 0. change (search_stop options) with (-1).
  rewrite window_full. eexists. split; [done|].
  split; [apply NoDup_descending|]. intros m.
  by rewrite elem_of_descending, combine_selected.
Qed.
End Phonetic.

(** ** Indexed documents are found *)

Lemma normal_put k z d : normal d → normal (put k z d).
Proof.
  intros Hd k' z'. unfold put. case_decide as Hz.
  - intros [_ ?]%lookup_delete_Some. by eapply Hd.
  - intros [[_ <-]|[_ ?]]%lookup_insert_Some; [done|]. by eapply Hd.
Qed.

Lemma posted_lookup d d' k m : d' !! k = d !! k → posted d k m → posted d' k m.
Proof. unfold posted, zscore. by intros ->. Qed.

Lemma posted_zadds cs d k m :
  Forall is_zadd cs → posted d k m → posted (run_cmds cs d) k m.
Proof.
  unfold posted. intros Hz H.
  destruct (zscore_zadds cs d k m Hz) as [->|(sc & _ & ->)]; [done|by eexists].
Qed.

Section Found.
Variable nStem : string → string.
Variable nMetaphone : string → list string.
Variable toLocaleLowerCase : string → string.
Variable localeCompare : string → string → Z.

Local Abbreviation step_ :=
  (step nStem nMetaphone toLocaleLowerCase localeCompare).
Local Abbreviation run_ :=
  (run nStem nMetaphone toLocaleLowerCase localeCompare).
Local Abbreviation search_ :=
  (search nStem nMetaphone toLocaleLowerCase localeCompare).

Lemma posted_set this id text cl k m :
  posted (db cl) k m → posted (db (set nStem nMetaphone this id text cl).2) k m.
Proof.
  destruct (set_batch nStem nMetaphone this id text cl) as (cs & Hz & -> & _).
  by apply posted_zadds.
Qed.

Lemma posted_search this text options cl k m :
  k ≠ tmp_key (index this) →
  (∀ sep keys, k ≠ cache_key (index this) sep keys) →
  posted (db cl) k m → posted (db (search_ this text options cl).2) k m.
Proof.
  intros Htmp Hcache. apply posted_lookup. unfold search.
  destruct (mode this).
  - rewrite metaphoneSearch_eq.
    destruct (query_keys _ _ _ _) as [[|k0 keys]|]; [done| |done].
    cbn [snd db].
    destruct (run_search_cmds (tmp_key (index this)) (search_type options)
                (k0 :: keys) (search_start options) (search_stop options)
                (db cl)) as [z ->].
    by apply lookup_put_ne.
  - destruct (db_typeaheadSearch toLocaleLowerCase localeCompare
                this text options cl) as (sep & keys & z & [-> | ->]); [done|].
    by apply lookup_put_ne.
Qed.

(** Token postings survive every call. *)
Lemma posted_token_step this cl o tok m :
  posted (db cl) (token_key (index this) tok) m →
  posted (db (step_ this cl o)) (token_key (index this) tok) m.
Proof.
  destruct o as [id text|id|text options]; simpl.
  - apply posted_set.
  - apply posted_lookup. rewrite db_delete.
    apply lookup_run_cmds_other, remove_cmds_targets.
    + intros H. key_family H.
    + apply token_key_not_in_words.
  - apply posted_search; [intros H; key_family H|].
    intros sep keys H. key_family H.
Qed.

(** Word postings of a document survive every call but its deletion. *)
Lemma posted_word_step this cl o code m :
  keeps m o →
  posted (db cl) (word_key (index this) code) m →
  posted (db (step_ this cl o)) (word_key (index this) code) m.
Proof.
  destruct o as [id text|id|text options]; simpl; intros Hkeep.
  - apply posted_set.
  - unfold posted. rewrite db_delete, zscore_remove_cmds.
    rewrite decide_False; [done|]. intros [?|[-> _]]; [key_clash|done].
  - apply posted_search; [intros H; key_family H|].
    intros sep keys H. key_family H.
Qed.

Lemma run_app this ops1 ops2 :
  run_ this (ops1 ++ ops2) = foldl (step_ this) (run_ this ops1) ops2.
Proof. unfold run. apply foldl_app. Qed.

Lemma posted_set_code name id text cl w code :
  w ∈ getStemWords nStem (getWords text) → plain w → code ∈ nMetaphone w →
  posted (db (setMetaphone nStem nMetaphone
                (new_RedisAdapter name (Some phonetic)) id text cl).2)
    (word_key name code) (to_string id).
Proof.
  intros Hw Hplain Hcode. rewrite db_setMetaphone.
  cbn [index new_RedisAdapter].
  destruct (zscore_last_write
              (metaphone_cmds name id
                 (processLanguage nStem nMetaphone text id))
              (db cl) (word_key name code) (to_string id))
    as (sc & _ & Hsc).
  - apply metaphone_cmds_zadd.
  - eexists. apply forward_write. eauto.
  - unfold posted. by rewrite Hsc.
Qed.

Lemma metaphoneSearch_result this text options cl keys :
  query_keys nStem nMetaphone (index this) text = Some keys → keys ≠ [] →
  (metaphoneSearch nStem nMetaphone this text options cl).1
  = Return
      (window
         (descending (combine (search_type options) (zset_at (db cl) <$> keys)))
         (search_start options) (search_stop options)).
Proof.
  intros Hk Hne. rewrite metaphoneSearch_eq, Hk. by destruct keys.
Qed.

(** X13. Phonetic strategy: once [set(id, text)] has run, and as long as
    [id] is not deleted, a search over the whole window finds [id] for
    every query that yields at least one code and whose codes are all
    codes of stemmed words of the text that name no member of
    [Object.prototype], whatever the combinator and whatever other calls
    ran before or after. *)
Theorem phonetic_indexed_is_found name ops1 ops2 id text query t :
  let this := new_RedisAdapter name (Some phonetic) in
  let cl := run_ this (ops1 ++ OpSet id text :: ops2) in
  let codes :=
    toMetaphoneArray nMetaphone (getStemWords nStem (getWords query)) in
  name ≠ "" →
  Forall (keeps (to_string id)) ops2 →
  codes ≠ [] →
  (∀ c, c ∈ codes →
        ∃ w, w ∈ getStemWords nStem (getWords text) ∧ plain w
             ∧ c ∈ nMetaphone w) →
  ∃ l, (search_ this query (Some {| type := t; between := None |}) cl).1
       = Return l
       ∧ to_string id ∈ l.
Proof.
  intros this cl codes Hname Hkeep Hcodes Hsub.
  assert (∀ c, c ∈ codes → posted (db cl) (word_key name c) (to_string id))
    as Hposted.
  { intros c (w & Hw & Hplain & Hc)%Hsub. subst cl.
    rewrite (run_app this ops1 (OpSet id text :: ops2)). simpl.
    generalize (run_ this ops1). intros cl0.
    assert (posted (db (set nStem nMetaphone this id text cl0).2)
              (word_key name c) (to_string id)) as H0
      by by apply posted_set_code with w.
    revert H0. generalize (set nStem nMetaphone this id text cl0).2.
    clear cl0. induction Hkeep as [|o ops2 Ho _ IH]; intros cl0 H0; [done|].
    simpl. apply IH. by apply (posted_word_step this). }
  change (search_ this query ?o cl) with
    (metaphoneSearch nStem nMetaphone this query o cl).
  assert (∃ c, c ∈ codes) as [c1 Hc1].
  { destruct codes as [|c codes']; [done|]. exists c. by left. }
  rewrite (metaphoneSearch_result this query _ cl (word_key name <$> codes)).
  2: { by rewrite query_keys_eq, decide_False. }
  2: { intros H%fmap_nil_inv. done. }
  change (search_start _) with 0. change (search_stop _) with (-1).
  rewrite window_full. eexists. split; [done|].
  apply elem_of_descending, combine_selected.
  { intros H%fmap_nil_inv. done. }
  unfold selected. destruct (search_type _).
  - intros k (c0 & -> & Hc0)%list_elem_of_fmap. by apply Hposted.
  - exists (word_key name c1). split; [by apply list_elem_of_fmap_2|].
    by apply Hposted.
Qed.

(** X14. Prefix strategy: once [set(id, text)] has run, a search over the
    whole window finds [id] for every query each of whose words is a
    prefix of a word of the text, whatever the combinator and whatever
    other calls, deletions included, ran before or after. *)
Theorem typeahead_indexed_is_found name ops1 ops2 id text ws query qs t :
  let this := new_RedisAdapter name (Some prefix) in
  let cl := run_ this (ops1 ++ OpSet id text :: ops2) in
  getWords text = Some ws →
  getWords query = Some qs →
  (∀ k, k ∈ qs → ∃ w, w ∈ ws ∧ is_prefix k w) →
  ∃ l, (search_ this query (Some {| type := t; between := None |}) cl).1
       = Return l
       ∧ to_string id ∈ l.
Proof.
  intros this cl Hws Hqs Hsub.
  assert (∀ k, k ∈ qs → posted (db cl) (token_key name k) (to_string id))
    as Hposted.
  { intros k (w & Hw & Hk)%Hsub. subst cl.
    rewrite (run_app this ops1 (OpSet id text :: ops2)). simpl.
    generalize (run_ this ops1). intros cl0.
    assert (posted (db (set nStem nMetaphone this id text cl0).2)
              (token_key name k) (to_string id)) as H0.
    { change (set nStem nMetaphone this id text cl0)
        with (setTypeAhead this id text cl0).
      pose proof (setTypeAhead_posts this id text cl0 ws w k Hws Hw Hk) as E.
      cbn [index this new_RedisAdapter] in E. unfold posted. by rewrite E. }
    revert H0. generalize (set nStem nMetaphone this id text cl0).2.
    clear cl0. induction ops2 as [|o ops2 IH]; intros cl0 H0; [done|].
    simpl. apply IH. by apply (posted_token_step this). }
  change (search_ this query ?o cl) with
    (typeaheadSearch toLocaleLowerCase localeCompare this query o cl).
  rewrite (typeaheadSearch_result _ _ _ _ _ _ _ Hqs).
  change (search_start _) with 0. change (search_stop _) with (-1).
  rewrite window_full. eexists. split; [done|].
  pose proof (getWords_nonempty query) as Hne. rewrite Hqs in Hne.
  apply elem_of_ascending, combine_selected.
  { intros H%(f_equal length). rewrite !length_fmap, length_sort in H.
    by destruct qs. }
  assert (∀ k, k ∈ sort toLocaleLowerCase localeCompare qs → k ∈ qs) as Hsort.
  { intros k. by rewrite sort_Permutation. }
  unfold selected. destruct (search_type _).
  - intros k (k0 & -> & Hk0)%list_elem_of_fmap.
    cbn [index this new_RedisAdapter]. by apply Hposted, Hsort.
  - destruct (sort toLocaleLowerCase localeCompare qs) as [|k0 ks] eqn:Hs.
    { apply (f_equal length) in Hs. rewrite length_sort in Hs.
      by destruct qs. }
    exists (token_key name k0). split; [rewrite fmap_cons; by left|].
    apply Hposted, Hsort. by left.
Qed.
End Found.

(** ** Indexing then deleting *)

Section Pairs.
Variable nStem : string → string.
Variable nMetaphone : string → list string.

(** The additions with a numeric score of a phonetic [set] come in pairs:
    a forward and a reverse write with the same positive count. *)
Lemma metaphone_cmds_pairs index id text pid k sc m :
  ZADD k sc m
    ∈ metaphone_cmds index id (processLanguage nStem nMetaphone text pid) →
  ∃ code n,
    1 ≤ n
    ∧ (ZADD k sc m = ZADD (word_key index code) n (to_string id)
       ∨ ZADD k sc m = ZADD (object_key index (to_string id)) n code)
    ∧ ZADD (object_key index (to_string id)) n code
        ∈ metaphone_cmds index id
            (processLanguage nStem nMetaphone text pid).
Proof.
  intros Hc.
  pose proof Hc as (w & wk & Hw & Hp & Hwk & Hin)%metaphone_cmds_shape.
  set (stems := getStemWords nStem (getWords text)) in *.
  destruct (tally_cases w (occurrences w stems))
    as [[_ Ht]|[_ (s & Ht & _)]]; rewrite Ht in Hin;
    unfold code_cmds, zadd in Hin; [|set_solver].
  exists wk, (occurrences w stems).
  split; [by apply occurrences_pos|]. split.
  - apply elem_of_cons in Hin as [->|Hin]; [by left|].
    apply list_elem_of_singleton in Hin as ->. by right.
  - apply metaphone_cmds_shape. exists w, wk. fold stems. rewrite Ht.
    repeat (split; [done|]). unfold code_cmds, zadd. set_solver.
Qed.
End Pairs.

Section RoundTrip.
Variable nStem : string → string.
Variable nMetaphone : string → list string.
Variable toLocaleLowerCase : string → string.
Variable localeCompare : string → string → Z.

Local Abbreviation step_ :=
  (step nStem nMetaphone toLocaleLowerCase localeCompare).
Local Abbreviation run_ :=
  (run nStem nMetaphone toLocaleLowerCase localeCompare).

Lemma normal_step this cl o : normal (db cl) → normal (db (step_ this cl o)).
Proof.
  intros H. destruct o as [id text|id|text options]; simpl.
  - destruct (set_batch nStem nMetaphone this id text cl) as (cs & _ & -> & _).
    by apply run_cmds_normal.
  - rewrite db_delete. by apply run_cmds_normal.
  - unfold search. destruct (mode this).
    + rewrite metaphoneSearch_eq.
      destruct (query_keys _ _ _ _) as [[|k keys]|]; [done| |done].
      cbn [snd db]. by apply run_cmds_normal.
    + destruct (db_typeaheadSearch toLocaleLowerCase localeCompare
                  this text options cl) as (sep & keys & z & [-> | ->]);
        [done|by apply normal_put].
Qed.

Lemma normal_run this ops : normal (db (run_ this ops)).
Proof.
  unfold run.
  cut (∀ cl, normal (db cl) → normal (db (foldl (step_ this) cl ops))).
  { intros H. apply H. intros k z. simpl. by rewrite lookup_empty. }
  induction ops as [|o ops IH]; intros cl Hcl; [done|].
  simpl. by apply IH, normal_step.
Qed.

(** X15. Phonetic strategy: in a state reached from the empty store in
    which document [id] has no reverse index, [set(id, text)] followed by
    [delete(id)] gives back the keyspace as it was. *)
Theorem set_then_delete_restores name ops id text :
  let this := new_RedisAdapter name (Some phonetic) in
  let cl := run_ this ops in
  db cl !! object_key name (to_string id) = None →
  db (delete this id (set nStem nMetaphone this id text cl).2).2 = db cl.
Proof.
  intros this cl Hnone.
  assert (normal (db cl)) as Hn by apply normal_run.
  assert (consistent name (db cl)) as [Hm _] by by apply (consistent_run _ _ _ _ this).
  change (set nStem nMetaphone this id text cl)
    with (setMetaphone nStem nMetaphone this id text cl).
  rewrite db_delete, db_setMetaphone. cbn [index this new_RedisAdapter].
  set (cs := metaphone_cmds name id (processLanguage nStem nMetaphone text id)).
  assert (Forall is_zadd cs) as Hz by apply metaphone_cmds_zadd.
  apply normal_ext; [by do 2 apply run_cmds_normal|done|].
  intros k m. rewrite zscore_remove_cmds. case_decide as Hcase.
  - destruct Hcase as [->|[-> (code & -> & _)%list_elem_of_fmap]].
    + unfold zscore. by rewrite Hnone.
    + destruct (zscore (db cl) (word_key name code) (to_string id))
        as [sc|] eqn:Hsc; [|done].
      apply Hm in Hsc. unfold zscore in Hsc. by rewrite Hnone in Hsc.
  - destruct (zscore_zadds cs (db cl) k m Hz) as [->|(sc & Hin & _)]; [done|].
    destruct Hcase.
    apply metaphone_cmds_pairs in Hin as (code & n & Hn1 & Hc & Hrev).
    destruct Hc as [[= -> _ ->]|[= -> _ _]]; [right|by left].
    split; [done|]. apply list_elem_of_fmap_2, elem_of_constants_of.
    destruct (zscore_last_write cs (db cl) (object_key name (to_string id))
                code Hz (ex_intro _ n Hrev)) as (sc' & Hin' & Hsc').
    exists sc'. split; [done|].
    apply metaphone_cmds_pairs in Hin' as (code' & n' & Hn' & Hc' & _).
    destruct Hc' as [[= Hk _ _]|[= <- _]]; [key_clash|lia].
Qed.
End RoundTrip.

Lemma set_then_delete_restores_witness :
  let this := new_RedisAdapter "UserSearch" (Some phonetic) in
  let cl := run Sample.stem Sample.metaphone Sample.lower Sample.collate
              this [OpSet (IdNum 1) "hello"] in
  db (delete this (IdNum 3)
        (set Sample.stem Sample.metaphone this (IdNum 3) "foo bar" cl).2).2
  = db cl.
Proof.
  apply (set_then_delete_restores Sample.stem Sample.metaphone Sample.lower
           Sample.collate "UserSearch" [OpSet (IdNum 1) "hello"] (IdNum 3)
           "foo bar").
  vm_compute. reflexivity.
Defined.

(** ** Texts without words, counts and names *)

(** X16. A text without word characters: in phonetic mode [set] succeeds,
    sends one empty batch and leaves the keyspace unchanged; in prefix
    mode [set] throws a TypeError before any request. *)
Theorem set_text_without_words nStem nMetaphone name id text cl :
  getWords text = None →
  set nStem nMetaphone (new_RedisAdapter name (Some phonetic)) id text cl
  = (Return true, Client (db cl) (sent cl ++ [Multi []]))
  ∧ set nStem nMetaphone (new_RedisAdapter name (Some prefix)) id text cl
    = (Throw TypeError, cl).
Proof.
  intros H. split.
  - change (set ?a ?b ?c id text cl) with (setMetaphone a b c id text cl).
    rewrite setMetaphone_eq. unfold processLanguage. by rewrite H.
  - change (set ?a ?b ?c id text cl) with (setTypeAhead c id text cl).
    rewrite setTypeAhead_eq. unfold processText, getTextTokens. by rewrite H.
Qed.

Lemma set_text_without_words_witness :
  set Sample.stem Sample.metaphone
    (new_RedisAdapter "UserSearch" (Some phonetic)) (IdNum 1) " ?!" fresh
  = (Return true, Client (db fresh) (sent fresh ++ [Multi []]))
  ∧ set Sample.stem Sample.metaphone
      (new_RedisAdapter "UserSearch" (Some prefix)) (IdNum 1) " ?!" fresh
    = (Throw TypeError, fresh).
Proof.
  apply (set_text_without_words Sample.stem Sample.metaphone "UserSearch"
           (IdNum 1) " ?!" fresh).
  vm_compute. reflexivity.
Defined.

Lemma NoDup_set_names {V} (o : dict V) k v :
  NoDup o.*1 → NoDup (JS.set o k v).*1.
Proof.
  induction o as [|[k0 v0] o IH]; simpl.
  - intros _. apply NoDup_singleton.
  - intros [Hk0 Ho]%NoDup_cons. case_decide; simpl.
    + by apply NoDup_cons.
    + apply NoDup_cons. split; [|by apply IH].
      rewrite set_names. set_solver.
Qed.

Lemma NoDup_assign_names {V} (o : dict V) k v :
  NoDup o.*1 → NoDup (assign o k v).*1.
Proof. unfold assign. case_decide; [done|]. apply NoDup_set_names. Qed.

(** X17. [wordLength] owns an entry for each word of the list other than
    [__proto__], and for nothing else.  A word that names no member of
    [Object.prototype] is mapped to its number of occurrences; a word that
    names an inherited function is mapped to the text of that function
    followed by one digit 1 per occurrence. *)
Theorem wordLength_spec ws w :
  JS.get (wordLength ws) w
  = if decide (w ∈ ws ∧ w ≠ "__proto__") then
      Some match inherited w with
           | Some text => Str (text +:+ ones (Z.to_nat (occurrences w ws)))
           | None => Num (occurrences w ws)
           end
    else None.
Proof. apply wordLength_get. Qed.

Lemma NoDup_keys {V} (o : dict V) : NoDup o.*1 → NoDup (JS.keys o).
Proof.
  intros Ho. unfold JS.keys. apply NoDup_app. split; [|split].
  - rewrite merge_sort_Permutation.
    assert (∀ names : list string,
              NoDup names →
              NoDup (omap (λ k, (λ n, (n, k)) <$> array_index k) names).*2)
      as H.
    { induction 1 as [|k names Hk Hn IH]; simpl; [constructor|].
      destruct (array_index k); simpl; [|done].
      constructor; [|done]. intros (nk & -> & Hin)%list_elem_of_fmap.
      apply list_elem_of_omap in Hin as (k' & Hk' & Heq).
      destruct (array_index k'); simplify_eq/=. done. }
    by apply H.
  - intros k (nk & -> & Hin)%list_elem_of_fmap.
    rewrite merge_sort_Permutation in Hin.
    apply list_elem_of_omap in Hin as (k' & Hk' & Heq).
    destruct (array_index k') eqn:Hidx; simplify_eq/=.
    intros [Hnone _]%list_elem_of_filter. congruence.
  - by apply NoDup_filter.
Qed.

Lemma NoDup_generateMetaphoneMap nMetaphone ws :
  NoDup (generateMetaphoneMap nMetaphone ws).*1.
Proof.
  unfold generateMetaphoneMap.
  cut (∀ acc : dict (list string), NoDup acc.*1 →
         NoDup (foldl (λ obj w, assign obj w (nMetaphone w)) acc ws).*1).
  { intros H. apply H. constructor. }
  induction ws as [|x ws IH]; intros acc Hacc; [done|].
  simpl. by apply IH, NoDup_assign_names.
Qed.

(** X18. The words a phonetic [set] iterates over ([Object.keys] of the
    metaphone map) are the distinct stemmed words of the text other than
    [__proto__], each once.  Each is mapped to its codes, and its count is
    its number of occurrences when it names no member of
    [Object.prototype], and otherwise the text of the inherited function
    followed by one digit 1 per occurrence. *)
Theorem processLanguage_keys nStem nMetaphone text id :
  let p := processLanguage nStem nMetaphone text id in
  let stems := nStem <$> default [] (getWords text) in
  words p = stems
  ∧ NoDup (keys p)
  ∧ (∀ w, w ∈ keys p ↔ w ∈ stems ∧ w ≠ "__proto__")
  ∧ ∀ w, w ∈ keys p →
         JS.get (map p) w = Some (nMetaphone w)
         ∧ JS.get (counts p) w
           = Some match inherited w with
                  | Some text =>
                      Str (text +:+ ones (Z.to_nat (occurrences w stems)))
                  | None => Num (occurrences w stems)
                  end.
Proof.
  intros p stems.
  assert (getStemWords nStem (getWords text) = stems) as Hst.
  { subst stems. unfold getStemWords. by destruct (getWords text). }
  split; [done|]. split; [|split].
  - cbn [keys p processLanguage].
    apply NoDup_keys, NoDup_generateMetaphoneMap.
  - intros w. rewrite <-Hst. apply keys_processLanguage.
  - intros w Hw.
    destruct (processLanguage_at nStem nMetaphone text id w Hw)
      as (Hmap & Hcount & _).
    split; [done|]. rewrite <-Hst. apply Hcount.
Qed.

(** ** Words that name members of [Object.prototype] *)

Section Inherited.
Variable nStem : string → string.
Variable nMetaphone : string → list string.

(** X24. Phonetic strategy: a stemmed word that names a member of
    [Object.prototype] posts nothing.  When every stemmed word of the text
    that yields a code is such a name, [set(id, text)] leaves the entry of
    [id] in the code's forward posting set as it was. *)
Theorem inherited_names_post_nothing name id text code cl :
  let this := new_RedisAdapter name (Some phonetic) in
  let stems := getStemWords nStem (getWords text) in
  (∀ w, w ∈ stems → code ∈ nMetaphone w → ¬ plain w) →
  zscore (db (set nStem nMetaphone this id text cl).2)
    (word_key name code) (to_string id)
  = zscore (db cl) (word_key name code) (to_string id).
Proof.
  intros this stems Hnone.
  change (set nStem nMetaphone this id text cl)
    with (setMetaphone nStem nMetaphone this id text cl).
  rewrite db_setMetaphone. cbn [index this new_RedisAdapter].
  apply zscore_untouched; [apply metaphone_cmds_zadd|].
  intros sc (w & Hw & Hplain & Hcode & _)%forward_write.
  by apply (Hnone w).
Qed.
End Inherited.

Lemma inherited_names_post_nothing_witness :
  zscore
    (db (set Sample.stem Sample.echo
           (new_RedisAdapter "UserSearch" (Some phonetic))
           (IdNum 1) "constructor foo" fresh).2)
    (word_key "UserSearch" "constructor") (to_string (IdNum 1))
  = zscore (db fresh) (word_key "UserSearch" "constructor")
      (to_string (IdNum 1)).
Proof.
  apply (inherited_names_post_nothing Sample.stem Sample.echo "UserSearch"
           (IdNum 1) "constructor foo" "constructor" fresh).
  intros w _ Hc. apply list_elem_of_singleton in Hc as <-.
  vm_compute. discriminate.
Defined.

(** The stemmed word "constructor": its count is the text of the function
    [Object] followed by "1", both additions carry that text as their
    score, and the server stores nothing.  The word "__proto__" is no key
    of the metaphone map, and nothing is sent for it. *)
Example inherited_name_refused :
  let text := "function Object() { [native code] }1" in
  let r := set Sample.stem Sample.echo Sample.adapter (IdNum 1)
             "constructor __proto__" fresh in
  r.1 = Return true
  ∧ sent r.2
    = [Multi [ZADD_TEXT "UserSearch:word:constructor" text "1";
              ZADD_TEXT "UserSearch:object:1" text "constructor"]]
  ∧ exec_all [ZADD_TEXT "UserSearch:word:constructor" text "1"] ∅
    = ([Failure "ERR value is not a valid float"], ∅)
  ∧ db r.2 = ∅.
Proof. vm_compute. repeat split; reflexivity. Qed.

(** ** Tokenizing joined words *)

Lemma tokenized_separator_app sep s ws :
  separator sep → tokenized s ws → tokenized (sep +:+ s) ws.
Proof.
  unfold separator. induction sep as [|c sep IH]; intros Hsep Hs; [done|].
  simpl in Hsep. rewrite append_cons.
  destruct (word_char c) eqn:Hc; [done|].
  apply tokenized_separator_cons; [done|]. by apply IH.
Qed.

Lemma tokenized_join sep ws :
  sep ≠ "" → separator sep → Forall word ws →
  tokenized (join sep ws) ws.
Proof.
  intros Hne Hsep. induction 1 as [|w ws Hw Hws IH].
  { by constructor. }
  destruct ws as [|w' ws].
  - simpl. replace w with ("" +:+ w +:+ "") at 1 by apply append_nil_r.
    apply (tokenized_run "" w "" []); [done..|]. by constructor.
  - change (join sep (w :: w' :: ws))
      with (w +:+ sep +:+ join sep (w' :: ws)).
    apply (tokenized_run "" w (sep +:+ join sep (w' :: ws))); [done..| |].
    + destruct sep as [|c sep]; [done|]. rewrite append_cons. simpl.
      unfold separator in Hsep. simpl in Hsep.
      by destruct (word_char c).
    + by apply tokenized_separator_app.
Qed.

(** X19. Tokenizing is a left inverse of joining: for a non-empty list of
    words (non-empty strings of word characters) and a non-empty separator
    without word characters, [getWords] of the joined text returns the
    list. *)
Theorem getWords_join sep ws :
  sep ≠ "" → separator sep → Forall word ws → ws ≠ [] →
  getWords (join sep ws) = Some ws.
Proof.
  intros Hne Hsep Hws Hnil. unfold getWords.
  rewrite (tokenized_unique _ ws) by by apply tokenized_join.
  by destruct ws.
Qed.

Lemma getWords_join_witness :
  getWords (join ", " ["foo_1"; "Bar"; "x"]) = Some ["foo_1"; "Bar"; "x"].
Proof.
  apply getWords_join; [done|by vm_compute| |done].
  repeat constructor; by vm_compute.
Defined.

(** ** Repeating a call *)

Lemma constants_of_absent index id d :
  d !! object_key index id = None → constants_of index id d = [].
Proof.
  intros H. unfold constants_of, zset_at. rewrite H. simpl.
  unfold descending, ascending. by rewrite map_to_list_empty.
Qed.

Lemma delete_returns this id cl : (delete this id cl).1 = Return true.
Proof. unfold delete, mbind, async_bind. by rewrite removeFromIndex_eq. Qed.

(** X20. In any mode and any state, deleting a document twice in a row
    leaves the keyspace as the first deletion left it: the second call
    finds no reverse index and its batch removes nothing. *)
Theorem delete_idempotent this id cl :
  let r1 := delete this id cl in
  let r2 := delete this id r1.2 in
  r2.1 = r1.1 ∧ db r2.2 = db r1.2
  ∧ sent r2.2
    = sent r1.2
      ++ [Single (ZREVRANGEBYSCORE
                    (object_key (index this) (to_string id)) 0);
          Multi [DEL (object_key (index this) (to_string id))]].
Proof.
  intros r1 r2. subst r2 r1. set (cl1 := (delete this id cl).2).
  assert (db cl1 !! object_key (index this) (to_string id) = None) as Hnone.
  { subst cl1. rewrite db_delete. unfold remove_cmds.
    rewrite run_cmds_cons, lookup_run_cmds_other.
    - simpl. apply lookup_delete_eq.
    - apply Forall_fmap, Forall_forall. intros c _. simpl. intros [= H].
      key_clash. }
  split; [by rewrite !delete_returns|]. split.
  - rewrite db_delete, (constants_of_absent _ _ _ Hnone).
    unfold remove_cmds. simpl. rewrite run_cmds_cons, run_cmds_nil. simpl.
    by apply delete_id.
  - unfold delete at 1, mbind, async_bind. rewrite removeFromIndex_eq.
    cbn [snd sent]. by rewrite (constants_of_absent _ _ _ Hnone).
Qed.

Section RepeatedTypeahead.
Variable toLocaleLowerCase : string → string.
Variable localeCompare : string → string → Z.

Lemma token_key_not_cache index sep keys (toks : list string) :
  cache_key index sep keys ∉ token_key index <$> toks.
Proof. intros (c & H & _)%list_elem_of_fmap. key_family H. Qed.

Lemma typeaheadSearch_eq this text options cl :
  typeaheadSearch toLocaleLowerCase localeCompare this text options cl
  = match getWords text with
    | None => (Throw TypeError, cl)
    | Some ws =>
        let keys := sort toLocaleLowerCase localeCompare ws in
        let op := search_type options in
        let tkey := cache_key (index this) (cache_sep op) keys in
        let posting := token_key (index this) <$> keys in
        let z := combine op (zset_at (db cl) <$> posting) in
        (Return (window (ascending z)
                   (search_start options) (search_stop options)),
         Client (put tkey z (db cl))
           (sent cl ++ [Multi [ZSTORE op tkey posting];
                        Single (ZRANGE tkey (search_start options)
                                  (search_stop options) false)]))
    end.
Proof.
  unfold typeaheadSearch. destruct (getWords text) as [ws|] eqn:Hws; [|done].
  rewrite bool_decide_true.
  2: { pose proof (length_sort toLocaleLowerCase localeCompare ws) as Hl.
       pose proof (getWords_nonempty text) as Hne. rewrite Hws in Hne.
       destruct ws; [done|]. rewrite Hl. simpl. lia. }
  unfold mbind, async_bind, mret, async_ret.
  destruct (search_type options); rewrite multi_eq, send_eq;
    cbn [db sent fst snd exec members];
    rewrite run_cmds_cons, run_cmds_nil; cbn [exec snd cache_sep];
    rewrite zset_at_put, decide_True by done; by rewrite <-app_assoc.
Qed.

(** X21. Prefix strategy: a second identical search on the store left by
    the first settles the same way and leaves the same keyspace; the cache
    key is rewritten from the token posting sets by every search. *)
Theorem repeated_typeahead_search this text options cl :
  let r1 := typeaheadSearch toLocaleLowerCase localeCompare
              this text options cl in
  let r2 := typeaheadSearch toLocaleLowerCase localeCompare
              this text options r1.2 in
  r2.1 = r1.1 ∧ db r2.2 = db r1.2.
Proof.
  intros r1 r2. subst r2 r1. rewrite !typeaheadSearch_eq.
  destruct (getWords text) as [ws|]; [|done]. cbn [fst snd db].
  rewrite zset_at_put_others by apply token_key_not_cache.
  by rewrite put_put.
Qed.
End RepeatedTypeahead.

(** ** The findability theorems on a concrete history *)

Lemma phonetic_indexed_is_found_witness :
  let this := new_RedisAdapter "UserSearch" (Some phonetic) in
  let cl := run Sample.stem Sample.metaphone Sample.lower Sample.collate this
              ([OpSet (IdNum 1) "hello"]
               ++ OpSet (IdNum 3) "foo bar"
               :: [OpDelete (IdNum 1); OpSearch "foo" None]) in
  ∃ l, (search Sample.stem Sample.metaphone Sample.lower Sample.collate this
          "bar foo" (Some {| type := Some type_and; between := None |}) cl).1
       = Return l
       ∧ to_string (IdNum 3) ∈ l.
Proof.
  apply (phonetic_indexed_is_found Sample.stem Sample.metaphone Sample.lower
           Sample.collate "UserSearch" [OpSet (IdNum 1) "hello"]
           [OpDelete (IdNum 1); OpSearch "foo" None] (IdNum 3) "foo bar"
           "bar foo" (Some type_and)).
  - done.
  - repeat constructor. vm_compute. discriminate.
  - vm_compute. discriminate.
  - vm_compute. intros c Hc.
    apply elem_of_cons in Hc as [->|Hc].
    + exists "bar". split; [by right; left|]. split; [done|by left].
    + apply list_elem_of_singleton in Hc as ->.
      exists "foo". split; [by left|]. split; [done|by left].
Defined.

Lemma typeahead_indexed_is_found_witness :
  let this := new_RedisAdapter "UserSearch" (Some prefix) in
  let cl := run Sample.stem Sample.metaphone Sample.lower Sample.collate this
              ([OpSet (IdNum 1) "Foo"; OpSearch "Fo Ba" None]
               ++ OpSet (IdNum 2) "Foo Bar"
               :: [OpDelete (IdNum 2); OpSearch "Fo Ba" None]) in
  ∃ l, (search Sample.stem Sample.metaphone Sample.lower Sample.collate this
          "Fo Ba" (Some {| type := Some type_and; between := None |}) cl).1
       = Return l
       ∧ to_string (IdNum 2) ∈ l.
Proof.
  apply (typeahead_indexed_is_found Sample.stem Sample.metaphone Sample.lower
           Sample.collate "UserSearch"
           [OpSet (IdNum 1) "Foo"; OpSearch "Fo Ba" None]
           [OpDelete (IdNum 2); OpSearch "Fo Ba" None] (IdNum 2) "Foo Bar"
           ["Foo"; "Bar"] "Fo Ba" ["Fo"; "Ba"] (Some type_and)).
  - vm_compute. reflexivity.
  - vm_compute. reflexivity.
  - intros k Hk. apply elem_of_cons in Hk as [->|Hk].
    + exists "Foo". split; [by left|]. split; [done|]. by exists "o".
    + apply list_elem_of_singleton in Hk as ->.
      exists "Bar". split; [by right; left|]. split; [done|]. by exists "r".
Defined.

(** ** What a search can return *)

Section Results.
Variable nStem : string → string.
Variable nMetaphone : string → list string.
Variable toLocaleLowerCase : string → string.
Variable localeCompare : string → string → Z.

Local Abbreviation step_ :=
  (step nStem nMetaphone toLocaleLowerCase localeCompare).
Local Abbreviation run_ :=
  (run nStem nMetaphone toLocaleLowerCase localeCompare).
Local Abbreviation search_ :=
  (search nStem nMetaphone toLocaleLowerCase localeCompare).

Lemma postings_among_lookup index ids d d' :
  (∀ a, d' !! word_key index a = d !! word_key index a) →
  (∀ a, d' !! token_key index a = d !! token_key index a) →
  postings_among index ids d → postings_among index ids d'.
Proof.
  intros Hw Ht H a m. destruct (H a m) as [H1 H2].
  unfold posted, zscore in *. rewrite Hw, Ht. by split.
Qed.

Lemma set_batch_members this id text :
  ∃ cs, Forall is_zadd cs
        ∧ (∀ cl, db (set nStem nMetaphone this id text cl).2
                 = run_cmds cs (db cl))
        ∧ ∀ a sc m,
            (ZADD (word_key (index this) a) sc m ∈ cs → m = to_string id)
            ∧ (ZADD (token_key (index this) a) sc m ∈ cs → m = to_string id).
Proof.
  unfold set. destruct (mode this).
  - exists (metaphone_cmds (index this) id
              (processLanguage nStem nMetaphone text id)).
    split; [apply metaphone_cmds_zadd|].
    split; [intros cl; by rewrite setMetaphone_eq|].
    intros a sc m. split; intros Hin.
    + apply metaphone_cmds_pairs in Hin as (code & n & _ & [Hc|Hc] & _).
      * by injection Hc.
      * injection Hc as Hk _ _. key_clash.
    + apply metaphone_cmds_pairs in Hin as (code & n & _ & [Hc|Hc] & _).
      * injection Hc as Hk _ _. key_family Hk.
      * injection Hc as Hk _ _. key_family Hk.
  - destruct (processText id text) as [processed|e] eqn:Hp.
    + exists (typeahead_cmds (index this) id processed).
      split; [apply typeahead_cmds_zadd|].
      split; [intros cl; by rewrite setTypeAhead_eq, Hp|].
      intros a sc m. unfold typeahead_cmds.
      split; intros (key & Heq & _)%list_elem_of_fmap.
      * injection Heq as Hk _ _. key_family Hk.
      * by injection Heq.
    + exists []. split; [done|].
      split; [intros cl; by rewrite setTypeAhead_eq, Hp|].
      intros a sc m. split; by intros ?%not_elem_of_nil.
Qed.

Lemma postings_among_step this ids cl o :
  postings_among (index this) ids (db cl) →
  postings_among (index this) (ids ++ indexed [o]) (db (step_ this cl o)).
Proof.
  intros H. destruct o as [id text|id|text options]; simpl.
  - destruct (set_batch_members this id text) as (cs & Hz & -> & Hmem).
    intros a m. destruct (H a m) as [H1 H2]. unfold posted in *.
    split; intros Hp; apply elem_of_app.
    + destruct (zscore_zadds cs (db cl) (word_key (index this) a) m Hz)
        as [E|(sc & Hin & _)]; [rewrite E in Hp; left; auto|].
      right. apply (Hmem a sc m) in Hin as ->. by left.
    + destruct (zscore_zadds cs (db cl) (token_key (index this) a) m Hz)
        as [E|(sc & Hin & _)]; [rewrite E in Hp; left; auto|].
      right. apply (Hmem a sc m) in Hin as ->. by left.
  - rewrite app_nil_r. intros a m. destruct (H a m) as [H1 H2].
    unfold posted in *. rewrite db_delete, !zscore_remove_cmds.
    split; case_decide; intros Hp; try by destruct Hp. all: auto.
  - rewrite app_nil_r. revert H. apply postings_among_lookup; intros a;
      by apply (search_lookup_index nStem nMetaphone toLocaleLowerCase
                  localeCompare this text options cl a).
Qed.
Lemma indexed_app ops1 ops2 : indexed (ops1 ++ ops2) = indexed ops1 ++ indexed ops2.
Proof. unfold indexed. apply omap_app. Qed.

Lemma postings_among_run this ops :
  postings_among (index this) (indexed ops) (db (run_ this ops)).
Proof.
  induction ops as [|o ops IH] using rev_ind.
  - intros a m. unfold posted, zscore. simpl. rewrite !lookup_empty.
    split; by intros [? ?].
  - unfold run. rewrite foldl_app, indexed_app. simpl.
    by apply postings_among_step.
Qed.

Lemma elem_of_indexed ops m :
  m ∈ indexed ops ↔ ∃ id text, OpSet id text ∈ ops ∧ m = to_string id.
Proof.
  unfold indexed. rewrite list_elem_of_omap. split.
  - intros ([id text|id|text options] & Hin & Heq); simplify_eq/=. eauto.
  - intros (id & text & Hin & ->). by exists (OpSet id text).
Qed.

(** X22. A search never returns an identifier that was not indexed: in
    either mode and for every window, each member of the list returned in
    a state reached from the empty store is the identifier of a document
    passed to an earlier [set]. *)
Theorem search_returns_indexed this ops text options l :
  (search_ this text options (run_ this ops)).1 = Return l →
  ∀ m, m ∈ l → ∃ id text', OpSet id text' ∈ ops ∧ m = to_string id.
Proof.
  intros Hl m Hm. apply elem_of_indexed.
  pose proof (postings_among_run this ops) as Hamong.
  revert Hl. unfold search. destruct (mode this).
  - rewrite metaphoneSearch_eq.
    destruct (query_keys _ _ _ _) as [[|k keys]|] eqn:Hk;
      [intros [= <-]; by apply not_elem_of_nil in Hm|
      |intros [= <-]; by apply not_elem_of_nil in Hm].
    cbn [fst]. intros [= <-]. apply window_subseteq in Hm.
    apply elem_of_descending, combine_dom in Hm as (z & Hz & Hin); [|done].
    change (z ∈ zset_at (db (run_ this ops)) <$> (k :: keys)) in Hz.
    apply query_keys_words in Hk as [codes Hcodes]. rewrite Hcodes in Hz.
    apply list_elem_of_fmap in Hz as (key & -> & Hkey).
    apply list_elem_of_fmap in Hkey as (code & -> & _).
    apply (proj1 (Hamong code m)). unfold posted. by rewrite zscore_zset_at.
  - rewrite typeaheadSearch_eq.
    destruct (getWords text) as [ws|] eqn:Hws; [|done].
    cbn [fst]. intros [= <-]. apply window_subseteq in Hm.
    apply elem_of_ascending, combine_dom in Hm as (z & Hz & Hin).
    2: { intros H%(f_equal length). rewrite !length_fmap, length_sort in H.
         pose proof (getWords_nonempty text) as Hne. rewrite Hws in Hne.
         by destruct ws. }
    apply list_elem_of_fmap in Hz as (key & -> & Hkey).
    apply list_elem_of_fmap in Hkey as (tok & -> & _).
    apply (proj2 (Hamong tok m)). unfold posted. by rewrite zscore_zset_at.
Qed.

Lemma combine_and_or d (keys : list string) m :
  keys ≠ [] →
  is_Some (combine zinterstore (zset_at d <$> keys) !! m) →
  is_Some (combine zunionstore (zset_at d <$> keys) !! m).
Proof.
  intros Hne. rewrite !combine_selected by done. simpl.
  destruct keys as [|k keys]; [done|].
  intros H. exists k. split; [by left|]. apply H. by left.
Qed.

(** X23. With the same query, store and window [0, -1], every identifier
    returned under the combinator and/intersect is also returned under
    or/union, in either mode. *)
Theorem and_results_within_or this text cl l :
  let options t := Some {| type := Some t; between := None |} in
  (search nStem nMetaphone toLocaleLowerCase localeCompare
     this text (options type_and) cl).1 = Return l →
  ∃ l', (search nStem nMetaphone toLocaleLowerCase localeCompare
           this text (options type_or) cl).1 = Return l'
        ∧ l ⊆ l'.
Proof.
  intros options. unfold search. destruct (mode this).
  - rewrite !metaphoneSearch_eq.
    destruct (query_keys _ _ _ _) as [[|k keys]|];
      [intros [= <-]; by exists []| |intros [= <-]; by exists []].
    pose proof (combine_and_or (db cl) (k :: keys)) as Hsub.
    cbn [fst]. intros [= <-]. eexists. split; [done|].
    change (search_start _) with 0. change (search_stop _) with (-1).
    rewrite !window_full. intros m Hm.
    apply elem_of_descending. apply Hsub; [done|].
    by apply elem_of_descending.
  - rewrite !typeaheadSearch_eq.
    destruct (getWords text) as [ws|] eqn:Hws; [|done].
    pose proof (combine_and_or (db cl)
                  (token_key (index this)
                     <$> sort toLocaleLowerCase localeCompare ws)) as Hsub.
    cbn [fst]. intros [= <-]. eexists. split; [done|].
    change (search_start _) with 0. change (search_stop _) with (-1).
    rewrite !window_full. intros m Hm.
    apply elem_of_ascending. apply Hsub.
    + intros H%(f_equal length). rewrite !length_fmap, length_sort in H.
      pose proof (getWords_nonempty text) as Hn. rewrite Hws in Hn.
      by destruct ws.
    + by apply elem_of_ascending.
Qed.
End Results.

Lemma search_returns_indexed_witness :
  ∃ id text',
    OpSet id text' ∈ [OpSet (IdNum 1) "hello"; OpSet (IdNum 3) "foo bar"]
    ∧ "3" = to_string id.
Proof.
  apply (search_returns_indexed Sample.stem Sample.metaphone Sample.lower
           Sample.collate Sample.adapter
           [OpSet (IdNum 1) "hello"; OpSet (IdNum 3) "foo bar"] "foo bar"
           (Sample.whole_range type_and) ["3"]).
  - vm_compute. reflexivity.
  - left.
Defined.

Lemma and_results_within_or_witness :
  let cl := run Sample.stem Sample.metaphone Sample.lower Sample.collate
              Sample.adapter
              [OpSet (IdNum 3) "foo bar"; OpSet (IdNum 4) "foo foo"] in
  ∃ l', (search Sample.stem Sample.metaphone Sample.lower Sample.collate
           Sample.adapter "foo bar"
           (Some {| type := Some type_or; between := None |}) cl).1
        = Return l'
        ∧ ["3"] ⊆ l'.
Proof.
  intros cl.
  apply (and_results_within_or Sample.stem Sample.metaphone Sample.lower
           Sample.collate Sample.adapter "foo bar" cl ["3"]).
  vm_compute. reflexivity.
Defined.

Lemma processLanguage_keys_witness :
  let p := processLanguage Sample.stem Sample.metaphone "foo bar foo"
             (IdNum 3) in
  JS.get (map p) "foo" = Some (Sample.metaphone "foo")
  ∧ JS.get (counts p) "foo"
    = Some (Num (occurrences "foo"
                   (Sample.stem <$> default [] (getWords "foo bar foo")))).
Proof.
  intros p.
  apply (processLanguage_keys Sample.stem Sample.metaphone "foo bar foo"
           (IdNum 3)).
  vm_compute. left.
Defined.
